(** * feilian.etree_tools: tree addressing, sanitization and pruning

    A shallow embedding of [src/feilian/etree_tools.py].  The lxml element
    tree the module mutates in place is modelled as an immutable rose tree;
    every in-place mutation becomes a function returning the updated node,
    and the parent pointer, which the code consults only in [_remove], is
    modelled by a flag telling whether the visited node has a parent. *)

From Stdlib Require Import List String Ascii Bool Arith ZArith NArith Lia.
From Stdlib Require Import DecimalString DecimalPos DecimalN Permutation Sorted.
From Stdlib Require DecimalFacts.
Import ListNotations.

#[local] Set Warnings "-register-all".
Local Open Scope list_scope.
Local Open Scope string_scope.

(** ** Data model *)

(** [ele.tag]: a [str] for an element, the factory function
    [etree.Comment] for a comment. *)
Inductive Tag : Type :=
| TagStr (name : string)
| TagComment.

(** An lxml node, of the two kinds the tree builder of [parse_html] makes.
    An element has a tag name, attributes (an ordered mapping with unique
    keys), text, tail and ordered children; a comment has only its content
    and a tail.  The tail is the text that follows the node; lxml moves it
    together with the node on [remove], [append] and [extend].  Processing
    instructions and entity references are not modelled. *)
Inductive Element : Type :=
| Elem (name : string) (attrib : list (string * string))
       (text : option string) (tail : option string)
       (children : list Element)
| CommentNode (content : string) (tail : option string).

Definition tag (e : Element) : Tag :=
  match e with
  | Elem name _ _ _ _ => TagStr name
  | CommentNode _ _ => TagComment
  end.
Definition attrib (e : Element) : list (string * string) :=
  match e with
  | Elem _ a _ _ _ => a
  | CommentNode _ _ => []
  end.
Definition text (e : Element) : option string :=
  match e with
  | Elem _ _ x _ _ => x
  | CommentNode x _ => Some x
  end.
Definition tail (e : Element) : option string :=
  match e with
  | Elem _ _ _ l _ => l
  | CommentNode _ l => l
  end.
Definition getchildren (e : Element) : list Element :=
  match e with
  | Elem _ _ _ _ c => c
  | CommentNode _ _ => []
  end.

Definition opt_str (x : option string) : string :=
  match x with Some s => s | None => "" end.

(** The attribute mapping after the deletions made on it. *)
Definition set_attrib (a : list (string * string)) (e : Element) : Element :=
  match e with
  | Elem n _ x l c => Elem n a x l c
  | CommentNode _ _ => e
  end.
(** [ele.text = x] *)
Definition set_text (x : option string) (e : Element) : Element :=
  match e with
  | Elem n a _ l c => Elem n a x l c
  | CommentNode _ l => CommentNode (opt_str x) l
  end.
(** The child list after removals and insertions. *)
Definition set_children (c : list Element) (e : Element) : Element :=
  match e with
  | Elem n a x l _ => Elem n a x l c
  | CommentNode _ _ => e
  end.

(** What the functions of the module accept: an [_Element], or an
    [_ElementTree] whose [getroot()] may be [None]. *)
Inductive Tree : Type :=
| AsElement (e : Element)
| AsElementTree (root : option Element).

(** The exceptions the modelled code raises. *)
Inductive exn : Type :=
| ValueError (msg : string)
| TypeError (msg : string)
| AttributeError (msg : string).

(** Induction over the nested children lists. *)
Section Element_ind2.
Variable P : Element -> Prop.
Hypothesis HElem : forall n a x l c, Forall P c -> P (Elem n a x l c).
Hypothesis HComment : forall x l, P (CommentNode x l).

Fixpoint Element_ind2 (e : Element) : P e :=
  match e with
  | Elem n a x l c =>
      HElem n a x l c
        ((fix go (cs : list Element) : Forall P cs :=
            match cs with
            | [] => Forall_nil P
            | c0 :: cs' => Forall_cons c0 (Element_ind2 c0) (go cs')
            end) c)
  | CommentNode x l => HComment x l
  end.
End Element_ind2.

(** [ele.iter()]: the node and all its descendants, in document order. *)
Fixpoint iter (e : Element) : list Element :=
  match e with
  | Elem _ _ _ _ c => e :: flat_map iter c
  | CommentNode _ _ => [e]
  end.

(** Nesting depth, used to bound the recursion of the pruning passes. *)
Fixpoint depth (e : Element) : nat :=
  match e with
  | Elem _ _ _ _ c => S (fold_right (fun x m => Nat.max (depth x) m) 0 c)
  | CommentNode _ _ => 1
  end.

(** [tree.getroot()], and the element itself when an element is passed. *)
Definition getroot (t : Tree) : option Element :=
  match t with
  | AsElement e => Some e
  | AsElementTree root => root
  end.

(** ** Strings *)

(** [s.startswith(p)] *)
Fixpoint startswith (s p : string) : bool :=
  match p, s with
  | EmptyString, _ => true
  | String a p', String b s' => Ascii.eqb a b && startswith s' p'
  | String _ _, EmptyString => false
  end.

(** The rest of [s] after the literal [p], when [s] starts with it. *)
Fixpoint after_literal (p s : string) : option string :=
  match p, s with
  | EmptyString, _ => Some s
  | String a p', String b s' =>
      if Ascii.eqb a b then after_literal p' s' else None
  | String _ _, EmptyString => None
  end.

(** [str(n)] for a non-negative integer. *)
Definition str_of_nat (n : nat) : string :=
  NilEmpty.string_of_uint (Nat.to_uint n).

(** [str(ele.tag)] as the f-strings of the address computation render it. *)
Definition str_of_tag (t : Tag) : string :=
  match t with
  | TagStr name => name
  | TagComment => "<built-in function Comment>"
  end.

Definition Tag_eqb (a b : Tag) : bool :=
  match a, b with
  | TagStr x, TagStr y => String.eqb x y
  | TagComment, TagComment => true
  | _, _ => false
  end.

(** [ele.tag == name] for a string literal [name]. *)
Definition tag_is (t : Tag) (name : string) : bool :=
  Tag_eqb t (TagStr name).

(** ** Attribute mapping *)

(** [key in attrib] / [attrib[key]] *)
Fixpoint attrib_get (key : string) (a : list (string * string)) : option string :=
  match a with
  | [] => None
  | (k, v) :: a' => if String.eqb k key then Some v else attrib_get key a'
  end.

(** [del attrib[key]] *)
Definition attrib_del (key : string) (a : list (string * string))
  : list (string * string) :=
  filter (fun kv => negb (String.eqb (fst kv) key)) a.

(** [key in ["class", "id"]] *)
Definition in_keep_list (key : string) : bool :=
  existsb (String.eqb key) ["class"; "id"].

(** ** Serialization *)

(** The double quote character. *)
Definition dquote : ascii := ascii_of_nat 34.

(** What libxml2 writes for character data and for attribute values: the
    markup characters as entities, a carriage return as a character
    reference, and in an attribute value the double quote, the line feed
    and the tab as well. *)
Fixpoint escape (in_attr : bool) (s : string) : string :=
  match s with
  | EmptyString => EmptyString
  | String c s' =>
      (if Ascii.eqb c "&" then "&amp;"
       else if Ascii.eqb c "<" then "&lt;"
       else if Ascii.eqb c ">" then "&gt;"
       else if Ascii.eqb c (ascii_of_nat 13) then "&#13;"
       else if in_attr && Ascii.eqb c dquote then "&quot;"
       else if in_attr && Ascii.eqb c (ascii_of_nat 10) then "&#10;"
       else if in_attr && Ascii.eqb c (ascii_of_nat 9) then "&#9;"
       else String c EmptyString) ++ escape in_attr s'
  end.

Definition write_attrib (a : list (string * string)) : string :=
  String.concat ""
    (map (fun kv => " " ++ fst kv ++ "=" ++ String dquote (escape true (snd kv))
                    ++ String dquote "") a).

(** [to_string(ele)] with [pretty_print=False]:
    [etree.tostring(ele, encoding="utf-8").decode("utf-8")].  An element
    without text and children is written self-closed, the tail follows the
    node. *)
Fixpoint to_string (e : Element) : string :=
  match e with
  | Elem name a x l c =>
      match x, c with
      | None, [] => "<" ++ name ++ write_attrib a ++ "/>"
      | _, _ =>
          "<" ++ name ++ write_attrib a ++ ">"
          ++ escape false (opt_str x)
          ++ String.concat "" (map to_string c)
          ++ "</" ++ name ++ ">"
      end ++ escape false (opt_str l)
  | CommentNode x l => "<!--" ++ x ++ "-->" ++ escape false (opt_str l)
  end.

(** ** Sanitizer *)

(** [\s] of a [str] pattern, on the code points below 256. *)
Definition is_space (c : ascii) : bool :=
  let n := nat_of_ascii c in
  (((9 <=? n) && (n <=? 13)) || ((28 <=? n) && (n <=? 32))
   || (n =? 133) || (n =? 160))%nat.

Fixpoint skip_spaces (s : string) : string :=
  match s with
  | String c s' => if is_space c then skip_spaces s' else s
  | EmptyString => s
  end.

(** [display\s*:\s*none] anchored at the start of [s].  The literal after
    each [\s*] is not a space, so the greedy star never has to give back. *)
Definition match_display_none (s : string) : bool :=
  match after_literal "display" s with
  | Some r =>
      match after_literal ":" (skip_spaces r) with
      | Some r' => startswith (skip_spaces r') "none"
      | None => false
      end
  | None => false
  end.

(** [re.search(r"display\s*:\s*none", s)] as a truth value. *)
Fixpoint search_display_none (s : string) : bool :=
  match_display_none s
  || match s with
     | String _ s' => search_display_none s'
     | EmptyString => false
     end.

(** [ele.clear()]: drops children, attributes, text and tail; the content
    of a comment is not text in that sense and stays. *)
Definition clear (e : Element) : Element :=
  match e with
  | Elem n _ _ _ _ => Elem n [] None None []
  | CommentNode x _ => CommentNode x None
  end.

(** [_remove(element)]: detaches the node when it has a parent.  [None]
    stands for "no longer in its parent's child list", [Some] for the node
    as it is left in place. *)
Definition _remove (has_parent : bool) (element : Element) : option Element :=
  if has_parent then None else Some element.

Section Sanitizer.

(** [feilian.html_constants.INTERACTIVE_ELEMENTS], a collection of tag
    names defined outside the module. *)
Variable INTERACTIVE_ELEMENTS : list string.

(** [ele.tag in INTERACTIVE_ELEMENTS] *)
Definition is_interactive (t : Tag) : bool :=
  match t with
  | TagStr name => existsb (String.eqb name) INTERACTIVE_ELEMENTS
  | _ => false
  end.

(** [not isinstance(ele.tag, str) and ele.tag.__name__ == "Comment"] *)
Definition is_comment (t : Tag) : bool :=
  match t with TagComment => true | TagStr _ => false end.

(** ["style" in ele.attrib and re.search(..., ele.attrib["style"])] *)
Definition hidden_by_style (a : list (string * string)) : bool :=
  match attrib_get "style" a with
  | Some v => search_display_none v
  | None => false
  end.

(** The loop over [list(ele.attrib.keys())]. *)
Definition strip_attrib (a : list (string * string)) : list (string * string) :=
  fold_left
    (fun acc key => if in_keep_list key then acc else attrib_del key acc)
    (map fst a) a.

(** [_clean_html(ele)].  Every node [iterchildren] yields is an
    [etree._Element], so the first test of the source never fires. *)
Definition _clean_html (has_parent : bool) (ele : Element) : option Element :=
  if is_comment (tag ele) then _remove has_parent ele
  else if is_interactive (tag ele) then _remove has_parent ele
  else if hidden_by_style (attrib ele) then
    Some (set_text (Some "") (clear ele))
  else
    match attrib ele with
    | [] => Some ele
    | _ :: _ =>
        let a1 := strip_attrib (attrib ele) in
        let a2 :=
          match attrib_get "href" a1 with
          | Some v => if startswith v "javascript:" then attrib_del "href" a1 else a1
          | None => a1
          end in
        let a3 :=
          if tag_is (tag ele) "img" then
            match attrib_get "src" a2 with
            | Some _ => attrib_del "src" a2
            | None => a2
            end
          else a2 in
        Some (set_attrib a3 ele)
    end.

(** The nodes left in a child list after each child has been visited. *)
Definition kept (visited : list (option Element)) : list Element :=
  flat_map (fun o => match o with Some e => [e] | None => [] end) visited.

(** [post_order_traversal(tree, func)].  [iterchildren] fetches the next
    sibling before the loop body runs, so detaching the current child does
    not disturb the iteration and every child is visited once. *)
Fixpoint post_order_traversal (func : bool -> Element -> option Element)
         (has_parent : bool) (tree : Element) : option Element :=
  match tree with
  | Elem n a x l c =>
      func has_parent
        (Elem n a x l (kept (map (post_order_traversal func true) c)))
  | CommentNode _ _ => func has_parent tree
  end.

(** [clean_html(ele)].  The traversal root is visited as a node without a
    parent, so [_remove] leaves it in place and the walk always hands the
    root back; on an [_ElementTree] without root, [None.iterchildren]
    raises. *)
Definition clean_root (root : Element) : Element :=
  match post_order_traversal _clean_html false root with
  | Some root' => root'
  | None => root
  end.

Definition clean_html (ele : Tree) : exn + Tree :=
  match ele with
  | AsElement e => inr (AsElement (clean_root e))
  | AsElementTree (Some root) => inr (AsElementTree (Some (clean_root root)))
  | AsElementTree None =>
      inl (AttributeError "'NoneType' object has no attribute 'iterchildren'")
  end.

End Sanitizer.

(** ** Address computer *)

(** A [defaultdict(int)] keyed by tag. *)
Definition counter : Type := list (Tag * nat).

(** [d[t]], 0 when the key is absent. *)
Fixpoint dd_get (t : Tag) (d : counter) : nat :=
  match d with
  | [] => 0
  | (k, n) :: d' => if Tag_eqb k t then n else dd_get t d'
  end.

(** [d[t] += 1] *)
Fixpoint dd_incr (t : Tag) (d : counter) : counter :=
  match d with
  | [] => [(t, 1)]
  | (k, n) :: d' => if Tag_eqb k t then (k, S n) :: d' else (k, n) :: dd_incr t d'
  end.

(** The first loop of both traversals: how many children carry each tag. *)
Definition count_tags (cs : list Element) : counter :=
  fold_left (fun d ele => dd_incr (tag ele) d) cs [].

(** The address of a child: the bare tag when it is the only child with
    that tag, otherwise the tag with its 1-based ordinal. *)
Definition child_xpath (xpath : string) (tag_counts tag_order : counter)
           (ele : Element) : string :=
  if (1 <? dd_get (tag ele) tag_counts)%nat then
    xpath ++ "/" ++ str_of_tag (tag ele)
    ++ "[" ++ str_of_nat (dd_get (tag ele) tag_order + 1) ++ "]"
  else
    xpath ++ "/" ++ str_of_tag (tag ele).

(** [_traverse(root, xpath)]: the pairs the generator yields, in order, on
    a tree that is not mutated while it is drained.  Each child is yielded
    once by its own sub-generator and once more by the loop of its
    parent. *)
Fixpoint _traverse (root : Element) (xpath : string) : list (Element * string) :=
  match root with
  | CommentNode _ _ => [(root, xpath)]
  | Elem _ _ _ _ c =>
      let tag_counts := count_tags c in
      ((fix loop (cs : list Element) (tag_order : counter)
          : list (Element * string) :=
          match cs with
          | [] => []
          | ele :: cs' =>
              let new_xpath := child_xpath xpath tag_counts tag_order ele in
              let tag_order := dd_incr (tag ele) tag_order in
              _traverse ele new_xpath ++ [(ele, new_xpath)] ++ loop cs' tag_order
          end) c []
       ++ [(root, xpath)])%list
  end.

(** [traverse(tree)].  It is a plain function: the two root checks run when
    it is called, and only then is the generator of [_traverse] created. *)
Definition traverse (tree : Tree) : exn + list (Element * string) :=
  match tree with
  | AsElementTree root =>
      match root with
      | None => inl (ValueError "root is None")
      | Some root =>
          if negb (tag_is (tag root) "html") then
            inl (ValueError "root tag is not html")
          else inr (_traverse root "/html")
      end
  | AsElement e => inr (_traverse e ("/" ++ str_of_tag (tag e)))
  end.

(** [_pre_order_traversal(tree, xpath, func)].  [func] mutates the visited
    node before its children are counted and walked, so the recursion
    follows the children of the node as [func] left it; [fuel] bounds the
    recursion depth.  The result is the tree after the walk.  The [None]
    test of the source is not modelled: no caller passes [None] here. *)
Fixpoint _pre_order_traversal (fuel : nat) (func : Element -> string -> Element)
         (tree : Element) (xpath : string) : option Element :=
  match fuel with
  | 0 => None
  | S fuel' =>
      let tree := func tree xpath in
      let tag_counts := count_tags (getchildren tree) in
      let loop :=
        fix loop (cs : list Element) (tag_order : counter)
          : option (list Element) :=
          match cs with
          | [] => Some []
          | ele :: cs' =>
              match _pre_order_traversal fuel' func ele
                      (child_xpath xpath tag_counts tag_order ele) with
              | None => None
              | Some ele' =>
                  match loop cs' (dd_incr (tag ele) tag_order) with
                  | None => None
                  | Some rest => Some (ele' :: rest)
                  end
              end
          end in
      match loop (getchildren tree) [] with
      | None => None
      | Some c' => Some (set_children c' tree)
      end
  end.

(** [pre_order_traversal(tree, func)]; [None] when [fuel] is too small. *)
Definition pre_order_traversal (fuel : nat) (tree : Tree)
           (func : Element -> string -> Element) : option (exn + Tree) :=
  match tree with
  | AsElementTree None =>
      Some (inl (AttributeError "'NoneType' object has no attribute 'tag'"))
  | AsElementTree (Some root) =>
      match _pre_order_traversal fuel func root ("/" ++ str_of_tag (tag root)) with
      | Some root' => Some (inr (AsElementTree (Some root')))
      | None => None
      end
  | AsElement e =>
      match _pre_order_traversal fuel func e ("/" ++ str_of_tag (tag e)) with
      | Some e' => Some (inr (AsElement e'))
      | None => None
      end
  end.

(** ** Address-set reducer *)

(** [sorted(xpaths)]: strings are ordered by code point. *)
Fixpoint insert_sorted (x : string) (l : list string) : list string :=
  match l with
  | [] => [x]
  | y :: l' => if String.leb x y then x :: l else y :: insert_sorted x l'
  end.

Definition sorted (l : list string) : list string :=
  fold_right insert_sorted [] l.

(** [deduplicate_to_prune(xpaths)] *)
Definition deduplicate_to_prune (xpaths : list string) : list string :=
  let xpaths := sorted xpaths in
  let n := List.length xpaths in
  let remove_indexes :=
    flat_map
      (fun i =>
         let xpath := nth i xpaths "" in
         filter (fun j => startswith (nth j xpaths "") xpath)
                (seq (i + 1) (n - (i + 1))))
      (seq 0 n) in
  map (fun i => nth i xpaths "")
      (filter (fun i => negb (existsb (Nat.eqb i) remove_indexes)) (seq 0 n)).

(** ** Inclusion pruner *)

(** [s.split("/")] *)
Fixpoint split_slash (s : string) : list string :=
  match s with
  | EmptyString => [""]
  | String c s' =>
      if Ascii.eqb c "/" then "" :: split_slash s'
      else match split_slash s' with
           | [] => [String c ""]
           | w :: ws => String c w :: ws
           end
  end.

(** [parent_xpath(xpath)]: ["/".join(xpath.split("/")[:-1])] *)
Definition parent_xpath (xpath : string) : string :=
  String.concat "/" (removelast (split_slash xpath)).

(** [prune_by_xpath(ele, xpath, includes)]: the node as the call leaves it,
    and the returned truth value. *)
Definition prune_by_xpath (ele : Element) (xpath : string)
           (includes : list string) : Element * bool :=
  let is_in_path := existsb (fun x => startswith x xpath) includes in
  let is_contained := existsb (fun x => startswith xpath x) includes in
  if negb is_in_path && negb is_contained then
    let include_parent :=
      existsb (fun x => startswith x (parent_xpath xpath)) includes in
    if include_parent then (set_text (Some "") (clear ele), false)
    else (ele, true)
  else (ele, true).

(** [extraction_based_pruning(tree, includes)]: the traversal driver drops
    the truth value [prune_by_xpath] returns. *)
Definition extraction_based_pruning (fuel : nat) (tree : Tree)
           (includes : list string) : option (exn + Tree) :=
  pre_order_traversal fuel tree
    (fun ele xpath => fst (prune_by_xpath ele xpath includes)).

(** ** Budget pruner *)

(** How a call ends: it returns a value ([None] for a bare [return]) or an
    exception leaves it. *)
Inductive outcome : Type :=
| Return (value : option Element)
| Raise (e : exn).

(** [remove_children(ele)] *)
Definition remove_children (ele : Element) : Element :=
  set_children [] ele.

(** [ele.extend(elements)] *)
Definition extend (ele : Element) (elements : list Element) : Element :=
  set_children (getchildren ele ++ elements)%list ele.

(** The child at position [idx] is a shared object: what a callee does to it
    shows in the child list of its parent. *)
Fixpoint update_nth (idx : nat) (child : Element) (cs : list Element)
  : list Element :=
  match cs, idx with
  | [], _ => []
  | _ :: cs', 0 => child :: cs'
  | c :: cs', S i => c :: update_nth i child cs'
  end.

Section BudgetPruner.

(** [tokenizer.encode(s).ids] *)
Variable tokenizer : string -> list Z.

(** [len(tokenizer.encode(to_string(ele)).ids)] *)
Definition count_tokens (ele : Element) : Z :=
  Z.of_nat (List.length (tokenizer (to_string ele))).

(** The [for idx, child in enumerate(children)] loop, entered with the
    current [child] and the children after it; it yields the values
    [idx], [child] and [acc_tokens] have when the loop is left, by
    [break] or by exhaustion. *)
Fixpoint scan (required_tokens : Z) (idx : nat) (acc_tokens : Z)
         (child : Element) (rest : list Element) : nat * Element * Z :=
  let child_tokens := count_tokens child in
  if (acc_tokens + child_tokens >? required_tokens)%Z then
    (idx, child, acc_tokens)
  else
    match rest with
    | [] => (idx, child, (acc_tokens + child_tokens)%Z)
    | next :: rest' =>
        scan required_tokens (S idx) (acc_tokens + child_tokens)%Z next rest'
    end.

(** [prune_by_tokens(tokenizer, ele, max_tokens, reversed)]: the element
    as the call leaves it and how the call ends; [None] when [fuel], the
    bound on the recursion depth, is too small.  The parameter [reversed]
    hides the builtin of the same name, so with [reversed=True] line 249
    calls a [bool].  The [ele is None] test is not modelled. *)
Fixpoint prune_by_tokens (fuel : nat) (ele : Element) (max_tokens : Z)
         (reversed : bool) : option (Element * outcome) :=
  match fuel with
  | 0 => None
  | S fuel' =>
      let total_token := count_tokens ele in
      if (total_token <=? max_tokens)%Z then Some (ele, Return None)
      else
        let children := getchildren ele in
        let ele := remove_children ele in
        let self_tokens := count_tokens ele in
        let required_tokens := (max_tokens - self_tokens)%Z in
        if reversed then
          Some (ele, Raise (TypeError "'bool' object is not callable"))
        else
          match children with
          | [] => Some (ele, Return None)
          | first :: rest =>
              let '(idx, child, acc_tokens) :=
                scan required_tokens 0 0 first rest in
              let ele := extend ele (firstn (idx + 1) children) in
              match prune_by_tokens fuel' child
                      (required_tokens - acc_tokens) reversed with
              | None => None
              | Some (child', Raise e) =>
                  Some (set_children (update_nth idx child' (getchildren ele)) ele,
                        Raise e)
              | Some (child', Return _) =>
                  let ele :=
                    set_children (update_nth idx child' (getchildren ele)) ele in
                  Some (ele, Return (Some ele))
              end
          end
  end.

(** [extract_left_subtree(tokenizer, element, max_tokens)]: works on a
    deep copy, so the argument itself is left alone. *)
Definition extract_left_subtree (fuel : nat) (element : Element)
           (max_tokens : Z) : option Element :=
  match prune_by_tokens fuel element max_tokens false with
  | Some (element', _) => Some element'
  | None => None
  end.

End BudgetPruner.

(** ** Control-character repair *)

(** A Python [str]: a sequence of code points. *)
Definition pystr : Type := list N.

Definition of_string (s : string) : pystr :=
  map N_of_ascii (list_ascii_of_string s).

Local Open Scope N_scope.

Definition is_digit (c : N) : bool := (48 <=? c) && (c <=? 57).

Definition is_hexdigit (c : N) : bool :=
  is_digit c || ((97 <=? c) && (c <=? 102)) || ((65 <=? c) && (c <=? 70)).

(** The longest prefix of [s] whose code points satisfy [p], and the rest. *)
Fixpoint span (p : N -> bool) (s : pystr) : pystr * pystr :=
  match s with
  | [] => ([], [])
  | c :: s' =>
      if p c then let (a, b) := span p s' in (c :: a, b) else ([], s)
  end.

Definition digit_value (c : N) : N :=
  if is_digit c then c - 48
  else if (97 <=? c) && (c <=? 122) then c - 97 + 10
  else c - 65 + 10.

(** [c] is a digit of [base]: one of [0-9], [a-z], [A-Z] whose value is
    below the base. *)
Definition valid_digit (base c : N) : bool :=
  (is_digit c || ((97 <=? c) && (c <=? 122)) || ((65 <=? c) && (c <=? 90)))
  && (digit_value c <? base).

(** The number a string of digits writes in [base]. *)
Definition numeric_value (s : pystr) (base : N) : N :=
  fold_left (fun n c => n * base + digit_value c) s 0.

(** [sys.get_int_max_str_digits()], as a Python 3.11 interpreter starts. *)
Definition int_max_str_digits : nat := 4300.

(** [int(s, base)] for a base from 2 to 36.  A string of digits of the base
    gives its number; [ValueError] leaves the call when the run of digits
    the string starts with is longer than [int_max_str_digits] and the base
    is no power of two, and when the string is empty or holds anything but
    digits of the base.  The patterns of this module hand over runs of
    ASCII digits only, so what [int] accepts besides (white space around
    the digits, a sign, underscores, a prefix, digits outside ASCII, the
    base 0) is not modelled; of a message its fixed opening is kept. *)
Definition int (s : pystr) (base : N) : exn + N :=
  if negb ((2 <=? base) && (base <=? 36)) then
    inl (ValueError "int() base must be >= 2 and <= 36, or 0")
  else if negb (N.land base (base - 1) =? 0)
          && (int_max_str_digits
              <? List.length (fst (span (valid_digit base) s)))%nat then
    inl (ValueError "Exceeds the limit (4300 digits) for integer string conversion")
  else
    match s with
    | [] => inl (ValueError "invalid literal for int()")
    | _ :: _ =>
        if forallb (valid_digit base) s then inr (numeric_value s base)
        else inl (ValueError "invalid literal for int()")
    end.

(** [strip_illegal_xml_characters(s, default, base)] *)
Definition strip_illegal_xml_characters (s default : pystr) (base : N)
  : exn + pystr :=
  match int s base with
  | inl e => inl e
  | inr n =>
      if (existsb (N.eqb n) [0xB; 0xC; 0xFFFE; 0xFFFF])
         || ((0x0 <=? n) && (n <=? 0x8))
         || ((0xE <=? n) && (n <=? 0x1F))
         || ((0xD800 <=? n) && (n <=? 0xDFFF))
      then inr [] else inr default
  end.

(** The character class of [ILLEGAL_XML_CHARS_RE]. *)
Definition ILLEGAL_XML_CHARS_RE (c : N) : bool :=
  ((0x00 <=? c) && (c <=? 0x08)) || (c =? 0x0b) || (c =? 0x0c)
  || ((0x0e <=? c) && (c <=? 0x1F))
  || ((0xD800 <=? c) && (c <=? 0xDFFF)) || (c =? 0xFFFE) || (c =? 0xFFFF).

(** [str(n)] *)
Definition decimal (n : N) : pystr :=
  of_string (NilEmpty.string_of_uint (N.to_uint n)).

(** [html.encode("ascii", "xmlcharrefreplace").decode("utf-8")] *)
Definition xmlcharrefreplace (html : pystr) : pystr :=
  flat_map
    (fun c => if c <? 128 then [c]
              else (of_string "&#" ++ decimal c ++ of_string ";")%list)
    html.

Fixpoint strip_prefix (p s : pystr) : option pystr :=
  match p, s with
  | [], _ => Some s
  | a :: p', b :: s' => if a =? b then strip_prefix p' s' else None
  | _ :: _, [] => None
  end.

(** A match of [digits+ ;?] after the opening of a reference: group 1 and
    the length of what is matched.  Both quantifiers are greedy and nothing
    follows them, so the longest run is the match. *)
Definition match_digits (p : N -> bool) (s : pystr) : option (pystr * nat) :=
  match span p s with
  | ([], _) => None
  | (digits, rest) =>
      match rest with
      | c :: _ => if c =? 59 then Some (digits, S (List.length digits))
                  else Some (digits, List.length digits)
      | [] => Some (digits, List.length digits)
      end
  end.

(** [&#(\d+);?] anchored at the start of [s]: group 1 and the length of
    group 0.  The string is ASCII when the pattern is applied, where [\d]
    is [0-9]. *)
Definition match_decimal_ref (s : pystr) : option (pystr * nat) :=
  match strip_prefix (of_string "&#") s with
  | Some s1 =>
      match match_digits is_digit s1 with
      | Some (digits, n) => Some (digits, (2 + n)%nat)
      | None => None
      end
  | None => None
  end.

(** [&#[xX]([0-9a-fA-F]+);?] anchored at the start of [s]. *)
Definition match_hex_ref (s : pystr) : option (pystr * nat) :=
  match strip_prefix (of_string "&#") s with
  | Some (c :: s1) =>
      if (c =? 120) || (c =? 88) then
        match match_digits is_hexdigit s1 with
        | Some (digits, n) => Some (digits, (3 + n)%nat)
        | None => None
        end
      else None
  | _ => None
  end.

(** [re.sub(pattern, repl, s)] for a pattern that matches no empty string:
    the leftmost matches, not overlapping, are replaced by [repl] applied to
    group 1 and group 0; [skip] counts the code points of the current match
    still to be passed over.  The matches are replaced from left to right,
    and an exception that leaves [repl] leaves [re.sub]. *)
Fixpoint re_sub (pattern : pystr -> option (pystr * nat))
         (repl : pystr -> pystr -> exn + pystr) (skip : nat) (s : pystr)
  : exn + pystr :=
  match s with
  | [] => inr []
  | c :: s' =>
      match skip with
      | S k => re_sub pattern repl k s'
      | O =>
          match pattern s with
          | Some (group1, len) =>
              match repl group1 (firstn len s) with
              | inl e => inl e
              | inr replacement =>
                  match re_sub pattern repl (len - 1) s' with
                  | inl e => inl e
                  | inr out => inr (replacement ++ out)%list
                  end
              end
          | None =>
              match re_sub pattern repl 0 s' with
              | inl e => inl e
              | inr out => inr (c :: out)
              end
          end
      end
  end.

(** [remove_control_characters(html)]: the repaired string, or the
    exception that leaves the call. *)
Definition remove_control_characters (html : pystr) : exn + pystr :=
  let html := xmlcharrefreplace html in
  match re_sub match_decimal_ref
               (fun group1 group0 => strip_illegal_xml_characters group1 group0 10)
               0 html with
  | inl e => inl e
  | inr html =>
      match re_sub match_hex_ref
                   (fun group1 group0 => strip_illegal_xml_characters group1 group0 16)
                   0 html with
      | inl e => inl e
      | inr html => inr (filter (fun c => negb (ILLEGAL_XML_CHARS_RE c)) html)
      end
  end.

(** A numeric character reference starts at the head of [s] and denotes a
    code point of the invalid range. *)
Definition illegal_ref_here (s : pystr) : bool :=
  match match_decimal_ref s with
  | Some (digits, _) => ILLEGAL_XML_CHARS_RE (numeric_value digits 10)
  | None => false
  end
  || match match_hex_ref s with
     | Some (digits, _) => ILLEGAL_XML_CHARS_RE (numeric_value digits 16)
     | None => false
     end.

(** Some numeric character reference in [s] denotes a code point of the
    invalid range. *)
Fixpoint has_illegal_ref (s : pystr) : bool :=
  illegal_ref_here s
  || match s with
     | [] => false
     | _ :: s' => has_illegal_ref s'
     end.

Local Close Scope N_scope.

(** ** Properties under test *)

(** The node carries no attribute besides [class] and [id]. *)
Definition attrib_allowed (e : Element) : bool :=
  forallb (fun kv => in_keep_list (fst kv)) (attrib e).

(** The node carries an [href] that begins with [javascript:]. *)
Definition javascript_href (e : Element) : bool :=
  match attrib_get "href" (attrib e) with
  | Some v => startswith v "javascript:"
  | None => false
  end.

Definition sanitized (e : Element) : bool :=
  attrib_allowed e && negb (javascript_href e).

(** Nothing is left for the sanitizer to do below and at a node that has a
    parent: no comment, no interactive element, only kept attributes. *)
Fixpoint settled (INTERACTIVE_ELEMENTS : list string) (e : Element) : bool :=
  match e with
  | Elem name a _ _ c =>
      negb (existsb (String.eqb name) INTERACTIVE_ELEMENTS)
      && forallb (fun kv => in_keep_list (fst kv)) a
      && forallb (settled INTERACTIVE_ELEMENTS) c
  | CommentNode _ _ => false
  end.

(** The node once the loop of [post_order_traversal] has visited its
    children, before [func] is applied to the node itself. *)
Definition children_visited (func : bool -> Element -> option Element)
           (tree : Element) : Element :=
  match tree with
  | Elem n a x l c =>
      Elem n a x l (kept (map (post_order_traversal func true) c))
  | CommentNode _ _ => tree
  end.

(** [to_string(tree.getroot())], or of the element itself. *)
Definition serialize (t : Tree) : option string :=
  option_map to_string (getroot t).

(** Modelled from the spec: [INTERACTIVE_ELEMENTS] is defined in
    [feilian/html_constants.py], which is not part of the sources at hand;
    the specification describes it as the denylist of "scripts, forms,
    inputs, buttons, embeds, and similarly interactive or non-content-bearing
    tags". *)
Definition INTERACTIVE_ELEMENTS_listed : list string :=
  ["script"; "form"; "input"; "button"; "embed"].

(** The address-set reducer's notion of coverage: [p] is [a] itself or lies
    below [a]. *)
Definition covers (a p : string) : bool :=
  String.eqb p a || startswith p (a ++ "/").

Definition covered (addresses : list string) (p : string) : bool :=
  existsb (fun a => covers a p) addresses.

(** A tokenizer with one token per character. *)
Definition char_tokenizer (s : string) : list Z :=
  map (fun c => Z.of_nat (nat_of_ascii c)) (list_ascii_of_string s).

(** A tokenizer with one token per letter [x] and none for anything else. *)
Definition x_tokenizer (s : string) : list Z :=
  map (fun c => Z.of_nat (nat_of_ascii c))
      (filter (fun c => Ascii.eqb c "x") (list_ascii_of_string s)).

(** The token counts of the given nodes, each serialized on its own, added
    up. *)
Definition sum_tokens (tokenizer : string -> list Z) (cs : list Element) : Z :=
  fold_right (fun c total => (count_tokens tokenizer c + total)%Z) 0%Z cs.

(** Position [k] is where the boundary child of [children] lies and
    [leftover] is the budget it is pruned with, when [required] tokens are
    left after the shell.  Every child before position [k] fits in
    [required] together with the children before it.  Either the child at
    position [k] is the first that does not, and [leftover] is what the
    children before it leave of [required]; or every child fits, [k] is the
    last position and [leftover] is what all the children leave. *)
Definition boundary_position (tokenizer : string -> list Z) (required : Z)
           (children : list Element) (k : nat) (leftover : Z) : Prop :=
  (forall j : nat,
      (j < k)%nat ->
      (sum_tokens tokenizer (firstn (S j) children) <= required)%Z)
  /\ (((required < sum_tokens tokenizer (firstn (S k) children))%Z
       /\ leftover = (required - sum_tokens tokenizer (firstn k children))%Z)
      \/ (S k = List.length children
          /\ (sum_tokens tokenizer children <= required)%Z
          /\ leftover = (required - sum_tokens tokenizer children)%Z)).

(** The call returned, it did not raise. *)
Definition returned (o : outcome) : bool :=
  match o with Return _ => true | Raise _ => false end.

(** ** Breadth-first walk *)

(** [breadth_first_travel(element, callback, enable_interruption)], started
    on the given [queue].  The callback is taken as an observer of the node
    it is handed: the result is the sequence of nodes it is called on.
    [fuel] bounds the number of turns of the [while] loop; the [None] test
    never fires on what [getchildren] returns. *)
Fixpoint breadth_first_loop (fuel : nat) (callback : Element -> bool)
         (enable_interruption : bool) (queue : list Element)
  : option (list Element) :=
  match queue with
  | [] => Some []
  | current :: queue =>
      match fuel with
      | 0 => None
      | S fuel' =>
          let should_interrupt := callback current in
          let queue :=
            if enable_interruption && should_interrupt then queue
            else (queue ++ getchildren current)%list in
          match breadth_first_loop fuel' callback enable_interruption queue with
          | Some visited => Some (current :: visited)
          | None => None
          end
      end
  end.

Definition breadth_first_travel (fuel : nat) (element : Element)
           (callback : Element -> bool) (enable_interruption : bool)
  : option (list Element) :=
  breadth_first_loop fuel callback enable_interruption [element].

(** The nodes a walk from [e] reaches when it does not go below a node at
    which an enabled interruption is signalled, in document order. *)
Fixpoint reach (callback : Element -> bool) (enable_interruption : bool)
         (e : Element) : list Element :=
  match e with
  | Elem _ _ _ _ c =>
      e :: (if enable_interruption && callback e then []
            else flat_map (reach callback enable_interruption) c)
  | CommentNode _ _ => [e]
  end.

(** ** Text collapser *)

Definition opt_list (x : option string) : list string :=
  match x with Some s => [s] | None => [] end.

(** What [itertext] yields for a node below the one it was started on: the
    text of an element, the fragments of its children, and the tail; for a
    comment only the tail. *)
Fixpoint itertext_below (e : Element) : list string :=
  match e with
  | Elem _ _ x l c =>
      (opt_list x ++ flat_map itertext_below c ++ opt_list l)%list
  | CommentNode _ l => opt_list l
  end.

(** [ele.itertext()]: the tail of the starting node is left out, and a
    comment yields nothing. *)
Definition itertext (ele : Element) : list string :=
  match ele with
  | Elem _ _ x _ c => (opt_list x ++ flat_map itertext_below c)%list
  | CommentNode _ _ => []
  end.

(** [s.rstrip()] *)
Fixpoint rstrip (s : string) : string :=
  match s with
  | EmptyString => EmptyString
  | String c s' =>
      match rstrip s' with
      | EmptyString => if is_space c then EmptyString else String c EmptyString
      | r => String c r
      end
  end.

(** [s.strip()] *)
Definition strip (s : string) : string := rstrip (skip_spaces s).

(** A [str] taken as a truth value. *)
Definition nonempty (s : string) : bool := negb (String.eqb s "").

(** [get_text_content(ele)] *)
Definition get_text_content (ele : Element) : string :=
  String.concat " " (filter nonempty (map strip (itertext ele))).

(** [replace_with_text(ele)] *)
Definition replace_with_text (ele : Element) : Element :=
  let text := get_text_content ele in
  set_text (Some text) (remove_children ele).

(** The loops of [prune_to_text] over [ele.getchildren()]: each child with
    the given tag is replaced by its text, in place. *)
Definition collapse_children (name : string) (ele : Element) : Element :=
  set_children
    (map (fun child => if tag_is (tag child) name then replace_with_text child
                       else child)
         (getchildren ele))
    ele.

(** [prune_to_text(ele)]: the element as the call leaves it. *)
Definition prune_to_text (ele : Element) : Element :=
  if (List.length (getchildren ele) =? 0)%nat && nonempty (opt_str (text ele))
  then set_text (Some (strip (opt_str (text ele)))) ele
  else if tag_is (tag ele) "tr" then collapse_children "td" ele
  else if tag_is (tag ele) "table" then ele
  else if tag_is (tag ele) "ul" || tag_is (tag ele) "ol" then
    collapse_children "li" ele
  else replace_with_text ele.

(** ** URL decoding *)

(** [attrib[key] = value]: an existing key keeps its place. *)
Fixpoint attrib_set (key value : string) (a : list (string * string))
  : list (string * string) :=
  match a with
  | [] => [(key, value)]
  | (k, v) :: a' =>
      if String.eqb k key then (k, value) :: a'
      else (k, v) :: attrib_set key value a'
  end.

Section DecodeUrl.

(** [urllib.parse.unquote] *)
Variable unquote : string -> string.

(** [_decode_url(element)].  lxml refuses an attribute value that holds a
    NUL or another control character with [ValueError]; [unquote] is taken
    to yield none. *)
Definition _decode_url (has_parent : bool) (element : Element) : option Element :=
  match attrib element with
  | [] => Some element
  | _ :: _ =>
      let a0 := attrib element in
      let a1 :=
        match attrib_get "href" a0 with
        | Some v => attrib_set "href" (unquote v) a0
        | None => a0
        end in
      let a2 :=
        match attrib_get "src" a1 with
        | Some v => attrib_set "src" (unquote v) a1
        | None => a1
        end in
      Some (set_attrib a2 element)
  end.

(** [decode_url(element)] *)
Definition decode_url (element : Element) : Element :=
  match post_order_traversal _decode_url false element with
  | Some element' => element'
  | None => element
  end.

End DecodeUrl.

(** The tree with the values of all [href] and [src] attributes blanked. *)
Fixpoint mask_urls (e : Element) : Element :=
  match e with
  | Elem n a x l c =>
      Elem n
           (map (fun kv => if String.eqb (fst kv) "href" || String.eqb (fst kv) "src"
                           then (fst kv, "") else kv) a)
           x l (map mask_urls c)
  | CommentNode _ _ => e
  end.

(** ** Further notions used in the statements *)

(** No ["/"] occurs in [s]. *)
Fixpoint no_slash (s : string) : bool :=
  match s with
  | EmptyString => true
  | String c s' => negb (Ascii.eqb c "/") && no_slash s'
  end.

(** The loop of [_pre_order_traversal] over the children, with the
    recursive call abstracted as [visit]. *)
Fixpoint pre_order_children (visit : Element -> string -> option Element)
         (xpath : string) (tag_counts : counter)
         (cs : list Element) (tag_order : counter) : option (list Element) :=
  match cs with
  | [] => Some []
  | ele :: cs' =>
      match visit ele (child_xpath xpath tag_counts tag_order ele) with
      | None => None
      | Some ele' =>
          match pre_order_children visit xpath tag_counts cs'
                  (dd_incr (tag ele) tag_order) with
          | None => None
          | Some rest => Some (ele' :: rest)
          end
      end
  end.

(** The loop of [_traverse] over the children, with the recursive call
    abstracted as [sub]. *)
Fixpoint traverse_children (sub : Element -> string -> list (Element * string))
         (xpath : string) (tag_counts : counter)
         (cs : list Element) (tag_order : counter) : list (Element * string) :=
  match cs with
  | [] => []
  | ele :: cs' =>
      let new_xpath := child_xpath xpath tag_counts tag_order ele in
      (sub ele new_xpath ++ [(ele, new_xpath)]
       ++ traverse_children sub xpath tag_counts cs' (dd_incr (tag ele) tag_order))%list
  end.

(** What [ele.clear()] followed by [ele.text = ""] leaves of a node. *)
Definition blank (e : Element) : Element := set_text (Some "") (clear e).

(** Whether [prune_by_xpath] blanks the node at address [xpath]: the test
    looks at the address alone. *)
Definition blanks (includes : list string) (xpath : string) : bool :=
  negb (existsb (fun x => startswith x xpath) includes)
  && negb (existsb (fun x => startswith xpath x) includes)
  && existsb (fun x => startswith x (parent_xpath xpath)) includes.

(** The callback [extraction_based_pruning] hands to the traversal. *)
Definition prune_node (includes : list string) (ele : Element)
           (xpath : string) : Element :=
  fst (prune_by_xpath ele xpath includes).

(** The set [remove_indexes] the two loops of [deduplicate_to_prune] build
    over the sorted list. *)
Definition remove_indexes (xpaths : list string) : list nat :=
  flat_map
    (fun i =>
       filter (fun j => startswith (nth j xpaths "") (nth i xpaths ""))
              (seq (i + 1) (List.length xpaths - (i + 1))))
    (seq 0 (List.length xpaths)).

(** The order [sorted] puts strings in. *)
Definition string_le (a b : string) : Prop := String.leb a b = true.

(** Neither string is a prefix of the other. *)
Definition unrelated (a b : string) : Prop :=
  startswith b a = false /\ startswith a b = false.

(** No reference opening ["&#"] occurs in [s]. *)
Fixpoint ref_opening_free (s : pystr) : bool :=
  match s with
  | [] => true
  | c :: s' =>
      negb ((c =? 38)%N && match s' with
                           | d :: _ => (d =? 35)%N
                           | [] => false
                           end)
      && ref_opening_free s'
  end.

(** A decimal reference with more digits than [int] takes starts at the
    head of [s]. *)
Definition long_ref_here (s : pystr) : bool :=
  match match_decimal_ref s with
  | Some (digits, _) => (int_max_str_digits <? List.length digits)%nat
  | None => false
  end.

(** Some decimal reference in [s] has more digits than [int] takes. *)
Fixpoint has_long_ref (s : pystr) : bool :=
  long_ref_here s
  || match s with
     | [] => false
     | _ :: s' => has_long_ref s'
     end.

(** ** Sanitizer: proofs *)

Section SanitizerProofs.

Variable IE : list string.

Lemma attrib_del_allowed key a :
  forallb (fun kv => in_keep_list (fst kv)) a = true ->
  forallb (fun kv => in_keep_list (fst kv)) (attrib_del key a) = true.
Proof.
  unfold attrib_del. induction a as [|kv a IH]; simpl; intros H; auto.
  apply andb_prop in H as [H1 H2].
  destruct (negb (fst kv =? key)); simpl; auto.
  rewrite H1. auto.
Qed.

Lemma allowed_get_none key a :
  in_keep_list key = false ->
  forallb (fun kv => in_keep_list (fst kv)) a = true ->
  attrib_get key a = None.
Proof.
  intros Hk. induction a as [|[k v] a IH]; simpl; intros H; auto.
  apply andb_prop in H as [H1 H2].
  destruct (String.eqb_spec k key) as [->|_]; auto.
  congruence.
Qed.

(** The deletion loop leaves only pairs whose key was looked at and kept. *)
Lemma strip_loop_sound keys : forall acc kv,
  In kv (fold_left
           (fun acc key => if in_keep_list key then acc else attrib_del key acc)
           keys acc) ->
  In kv acc /\ (In (fst kv) keys -> in_keep_list (fst kv) = true).
Proof.
  induction keys as [|key keys IH]; simpl; intros acc kv H.
  - split; [assumption | intros []].
  - apply IH in H as [Hin Hk].
    destruct (in_keep_list key) eqn:Ekey.
    + split; auto. intros [<-|Hin']; auto.
    + unfold attrib_del in Hin. apply filter_In in Hin as [Hin Hne].
      split; auto. intros [->|Hin']; auto.
      rewrite String.eqb_refl in Hne. discriminate.
Qed.

Lemma strip_attrib_allowed a :
  forallb (fun kv => in_keep_list (fst kv)) (strip_attrib a) = true.
Proof.
  apply forallb_forall. intros kv H.
  apply strip_loop_sound in H as [Hin Hk].
  apply Hk. apply in_map. assumption.
Qed.

Lemma strip_loop_id keys : forall acc,
  forallb in_keep_list keys = true ->
  fold_left
    (fun acc key => if in_keep_list key then acc else attrib_del key acc)
    keys acc = acc.
Proof.
  induction keys as [|key keys IH]; simpl; intros acc H; auto.
  apply andb_prop in H as [H1 H2]. rewrite H1. auto.
Qed.

Lemma strip_attrib_id a :
  forallb (fun kv => in_keep_list (fst kv)) a = true -> strip_attrib a = a.
Proof.
  intros H. unfold strip_attrib. apply strip_loop_id.
  induction a as [|kv a IHa]; simpl in *; auto.
  apply andb_prop in H as [H1 H2]. rewrite H1. auto.
Qed.

Lemma kept_map_Some c : kept (map Some c) = c.
Proof.
  induction c as [|e c IHc]; simpl; [reflexivity | now rewrite IHc].
Qed.

Lemma allowed_not_hidden a :
  forallb (fun kv => in_keep_list (fst kv)) a = true ->
  hidden_by_style a = false.
Proof.
  intros H. unfold hidden_by_style.
  rewrite (allowed_get_none "style" a); auto.
Qed.

(** A node whose tag is neither a comment nor interactive and whose
    attributes are all kept is handed back as it is. *)
Lemma _clean_html_fixed hp e :
  is_comment (tag e) = false ->
  is_interactive IE (tag e) = false ->
  attrib_allowed e = true ->
  _clean_html IE hp e = Some e.
Proof.
  intros Hc Hi Ha. unfold _clean_html. rewrite Hc, Hi.
  unfold attrib_allowed in Ha.
  rewrite (allowed_not_hidden _ Ha).
  destruct (attrib e) as [|kv a] eqn:Ea; [reflexivity|].
  rewrite (strip_attrib_id _ Ha).
  rewrite (allowed_get_none "href" _ eq_refl Ha).
  assert (Hsrc : attrib_get "src" (kv :: a) = None)
    by (apply allowed_get_none; auto).
  rewrite Hsrc.
  replace (if tag_is (tag e) "img" then kv :: a else kv :: a) with (kv :: a)
    by (destruct (tag_is (tag e) "img"); reflexivity).
  f_equal. destruct e; simpl in *; congruence.
Qed.

Lemma settled_node_facts e :
  settled IE e = true ->
  is_comment (tag e) = false /\ is_interactive IE (tag e) = false
  /\ attrib_allowed e = true.
Proof.
  destruct e as [n a x l c | x l]; simpl; intros H.
  - apply andb_prop in H as [H _]. apply andb_prop in H as [H1 H2].
    unfold attrib_allowed; simpl. apply negb_true_iff in H1. auto.
  - discriminate.
Qed.

(** The sanitizer leaves a settled tree alone. *)
Lemma post_order_settled e :
  settled IE e = true ->
  forall hp, post_order_traversal (_clean_html IE) hp e = Some e.
Proof.
  induction e as [n a x l c IHc | x l] using Element_ind2; intros Hs hp.
  - simpl.
    assert (Hmap : map (post_order_traversal (_clean_html IE) true) c = map Some c).
    { simpl in Hs. apply andb_prop in Hs as [_ Hc].
      induction IHc as [|e c He _ IH]; simpl in *; [reflexivity|].
      apply andb_prop in Hc as [H1 H2].
      rewrite (He H1 true), (IH H2). reflexivity. }
    rewrite Hmap, kept_map_Some.
    destruct (settled_node_facts _ Hs) as (Hc & Hi & Ha).
    now apply _clean_html_fixed.
  - simpl. destruct (settled_node_facts _ Hs) as (Hc & Hi & Ha).
    now apply _clean_html_fixed.
Qed.

(** What [_clean_html] leaves of a node with settled children is settled,
    when the node is not one that only the missing parent kept in place. *)
Lemma _clean_html_settles hp e e' :
  forallb (settled IE) (getchildren e) = true ->
  _clean_html IE hp e = Some e' ->
  hp = true \/ (is_comment (tag e) = false /\ is_interactive IE (tag e) = false) ->
  settled IE e' = true.
Proof.
  intros Hch H Hhp. unfold _clean_html, _remove in H.
  destruct (is_comment (tag e)) eqn:Hc.
  { destruct Hhp as [-> | [? _]]; discriminate. }
  destruct (is_interactive IE (tag e)) eqn:Hi.
  { destruct Hhp as [-> | [_ ?]]; discriminate. }
  destruct e as [n a x l c | x l]; simpl in *.
  - destruct (hidden_by_style a).
    + inversion H; subst; simpl. rewrite Hi. reflexivity.
    + destruct a as [|kv a].
      * inversion H; subst; simpl. rewrite Hi, Hch. reflexivity.
      * inversion H; subst; simpl. rewrite Hi, Hch. simpl.
        rewrite andb_true_r.
        pose proof (strip_attrib_allowed (kv :: a)) as Hs.
        destruct (tag_is (TagStr n) "img");
          repeat match goal with
                 | |- context [match ?o with Some _ => _ | None => _ end] =>
                     destruct o
                 | |- context [if ?b then _ else _] => destruct b
                 end;
          auto using attrib_del_allowed.
  - discriminate.
Qed.

Lemma kept_settled c :
  Forall (fun e => forall e',
            post_order_traversal (_clean_html IE) true e = Some e' ->
            settled IE e' = true) c ->
  forallb (settled IE)
          (kept (map (post_order_traversal (_clean_html IE) true) c)) = true.
Proof.
  induction 1 as [|e c He _ IH]; simpl; [reflexivity|].
  destruct (post_order_traversal (_clean_html IE) true e) as [e'|] eqn:E; simpl; auto.
  rewrite (He e' eq_refl). auto.
Qed.

Lemma post_order_traversal_eq func hp e :
  post_order_traversal func hp e = func hp (children_visited func e).
Proof. destruct e; reflexivity. Qed.

Lemma tag_children_visited func e : tag (children_visited func e) = tag e.
Proof. destruct e; reflexivity. Qed.

Lemma post_order_settles_all e : forall e',
  post_order_traversal (_clean_html IE) true e = Some e' ->
  settled IE e' = true.
Proof.
  induction e as [n a x l c IHc | x l] using Element_ind2; intros e' H;
    rewrite post_order_traversal_eq in H.
  - apply (_clean_html_settles true
             (children_visited (_clean_html IE) (Elem n a x l c)) e'
             (kept_settled _ IHc) H).
    now left.
  - apply (_clean_html_settles true (CommentNode x l) e' eq_refl H). now left.
Qed.

Lemma children_visited_settled e :
  forallb (settled IE) (getchildren (children_visited (_clean_html IE) e)) = true.
Proof.
  destruct e as [n a x l c | x l]; simpl; [|reflexivity].
  apply kept_settled, Forall_forall. intros e _ e'. apply post_order_settles_all.
Qed.

(** [_remove] finds no parent at the root, so the walk hands the root back. *)
Lemma _clean_html_root e : exists e', _clean_html IE false e = Some e'.
Proof.
  unfold _clean_html, _remove.
  repeat match goal with
         | |- context [if ?b then _ else _] => destruct b
         | |- context [match ?o with [] => _ | _ :: _ => _ end] => destruct o
         end; eexists; reflexivity.
Qed.

Lemma _clean_html_removes hp e :
  is_comment (tag e) || is_interactive IE (tag e) = true ->
  _clean_html IE hp e = _remove hp e.
Proof.
  intros E. unfold _clean_html.
  apply orb_true_iff in E as [E|E]; rewrite E;
    [|destruct (is_comment (tag e))]; reflexivity.
Qed.

Lemma clean_root_eq e :
  post_order_traversal (_clean_html IE) false e = Some (clean_root IE e).
Proof.
  unfold clean_root. rewrite post_order_traversal_eq.
  destruct (_clean_html_root (children_visited (_clean_html IE) e)) as [e' ->].
  reflexivity.
Qed.

(** A root whose tag is a comment's or interactive is left as the visit of
    its children made it; any other root ends up settled. *)
Lemma clean_root_cases e :
  (is_comment (tag e) || is_interactive IE (tag e) = true
   /\ clean_root IE e = children_visited (_clean_html IE) e)
  \/ (is_comment (tag e) || is_interactive IE (tag e) = false
      /\ settled IE (clean_root IE e) = true).
Proof.
  pose proof (clean_root_eq e) as H. rewrite post_order_traversal_eq in H.
  pose proof (tag_children_visited (_clean_html IE) e) as Ht.
  destruct (is_comment (tag e) || is_interactive IE (tag e)) eqn:E.
  - left. split; auto.
    rewrite _clean_html_removes in H by (now rewrite Ht).
    simpl in H. congruence.
  - right. split; auto. apply orb_false_iff in E as [Ec Ei].
    apply (_clean_html_settles false _ _ (children_visited_settled e) H).
    right. rewrite Ht. auto.
Qed.

Lemma children_visited_fixed e :
  forallb (settled IE) (getchildren e) = true ->
  children_visited (_clean_html IE) e = e.
Proof.
  destruct e as [n a x l c | x l]; simpl; intros H; [|reflexivity].
  f_equal. rewrite <- (kept_map_Some c) at 2. f_equal.
  induction c as [|e c IHc]; simpl in *; [reflexivity|].
  apply andb_prop in H as [H1 H2].
  rewrite (post_order_settled e H1 true), (IHc H2). reflexivity.
Qed.

(** Sanitizing a sanitized root changes nothing. *)
Lemma clean_root_idempotent e :
  clean_root IE (clean_root IE e) = clean_root IE e.
Proof.
  destruct (clean_root_cases e) as [[E Heq] | [E Hs]].
  - assert (Hfix : forall e1, tag e1 = tag e ->
                     forallb (settled IE) (getchildren e1) = true ->
                     clean_root IE e1 = e1).
    { intros e1 Ht Hch. unfold clean_root.
      rewrite post_order_traversal_eq, (children_visited_fixed _ Hch).
      rewrite _clean_html_removes by (now rewrite Ht). reflexivity. }
    rewrite Heq. apply Hfix.
    + apply tag_children_visited.
    + apply children_visited_settled.
  - unfold clean_root at 1. now rewrite (post_order_settled _ Hs false).
Qed.

Lemma settled_children e :
  settled IE e = true -> forallb (settled IE) (getchildren e) = true.
Proof.
  destruct e; simpl; intros H; [|reflexivity].
  now apply andb_prop in H as [_ H].
Qed.

Lemma allowed_sanitized e : attrib_allowed e = true -> sanitized e = true.
Proof.
  intros H. unfold sanitized, javascript_href. rewrite H.
  unfold attrib_allowed in H.
  now rewrite (allowed_get_none "href" _ eq_refl H).
Qed.

(** In a settled tree every node is sanitized. *)
Lemma settled_iter_sanitized e :
  settled IE e = true -> Forall (fun x => sanitized x = true) (iter e).
Proof.
  induction e as [n a x l c IHc | x l] using Element_ind2; intros Hs.
  - simpl. constructor.
    + apply allowed_sanitized. now destruct (settled_node_facts _ Hs) as (_ & _ & ?).
    + apply settled_children in Hs. simpl in Hs.
      induction IHc as [|e c He _ IH]; simpl in *; [constructor|].
      apply andb_prop in Hs as [H1 H2].
      apply Forall_app. auto.
  - simpl. constructor; [reflexivity | constructor].
Qed.

Lemma settled_children_sanitized c :
  forallb (settled IE) c = true ->
  Forall (fun x => sanitized x = true) (flat_map iter c).
Proof.
  induction c as [|e c IHc]; simpl; intros H; [constructor|].
  apply andb_prop in H as [H1 H2].
  apply Forall_app. split; auto using settled_iter_sanitized.
Qed.

Lemma iter_eq e : iter e = e :: flat_map iter (getchildren e).
Proof. destruct e; reflexivity. Qed.

Lemma clean_html_root_inv t t' root' :
  clean_html IE t = inr t' -> getroot t' = Some root' ->
  exists root, getroot t = Some root /\ root' = clean_root IE root.
Proof.
  destruct t as [e | [root|]]; simpl; intros H Hr; inversion H; subst;
    simpl in Hr; inversion Hr; subst; eexists; split; reflexivity.
Qed.

(** C3 (amended): after [clean_html] returns, every node below the traversal
    root carries no attribute other than [class] or [id] and no [href]
    beginning with [javascript:]; the root itself does too, unless its tag
    is in [INTERACTIVE_ELEMENTS]: such a root has no parent to be removed
    from and is left with the attributes it came with. *)
Theorem clean_html_attributes (t t' : Tree) (root' : Element) :
  clean_html IE t = inr t' ->
  getroot t' = Some root' ->
  Forall (fun e => sanitized e = true) (flat_map iter (getchildren root'))
  /\ (is_interactive IE (tag root') = false -> sanitized root' = true).
Proof.
  intros H Hr.
  destruct (clean_html_root_inv _ _ _ H Hr) as (root & _ & ->).
  destruct (clean_root_cases root) as [[E Heq] | [E Hs]].
  - rewrite Heq. split.
    + apply settled_children_sanitized, children_visited_settled.
    + rewrite tag_children_visited. intros Hi. rewrite Hi, orb_false_r in E.
      destruct root as [n a x l c | x l]; simpl in *; [discriminate|].
      reflexivity.
  - pose proof (settled_iter_sanitized _ Hs) as Hall.
    rewrite iter_eq in Hall. inversion Hall; subst. split; auto.
Qed.

(** C7: sanitizing a sanitized tree succeeds and yields a tree with the
    same serialization (indeed the same tree). *)
Theorem clean_html_idempotent (t t1 : Tree) :
  clean_html IE t = inr t1 ->
  exists t2, clean_html IE t1 = inr t2 /\ serialize t2 = serialize t1.
Proof.
  intros H. exists t1. split; [|reflexivity].
  destruct t as [e | [root|]]; simpl in H; inversion H; subst; simpl;
    now rewrite clean_root_idempotent.
Qed.

Lemma not_in_existsb name :
  ~ In name IE -> existsb (String.eqb name) IE = false.
Proof.
  intros Hn. destruct (existsb (String.eqb name) IE) eqn:E; [|reflexivity].
  apply existsb_exists in E as (y & Hy & Heq).
  apply String.eqb_eq in Heq. subst. contradiction.
Qed.

(** C8: sanitizing [<div style="display:none"><span>x</span></div>] keeps
    the [div], without children, with empty text and with an empty attribute
    set: [clear] drops the [style] attribute together with everything
    else. *)
Theorem clean_html_display_none (x : string) :
  ~ In "div" IE ->
  clean_html IE
    (AsElement (Elem "div" [("style", "display:none")] None None
                     [Elem "span" [] (Some x) None []]))
  = inr (AsElement (Elem "div" [] (Some "") None [])).
Proof.
  intros Hdiv. apply not_in_existsb in Hdiv.
  unfold clean_html, clean_root. do 2 f_equal.
  rewrite post_order_traversal_eq.
  set (div := children_visited _ _).
  assert (Hdivtag : tag div = TagStr "div") by apply tag_children_visited.
  assert (Hattr : attrib div = [("style", "display:none")]) by reflexivity.
  unfold _clean_html. rewrite Hdivtag, Hattr.
  change (is_comment (TagStr "div")) with false.
  change (is_interactive IE (TagStr "div")) with (existsb (String.eqb "div") IE).
  rewrite Hdiv.
  change (hidden_by_style [("style", "display:none")]) with true.
  cbv iota. clearbody div.
  destruct div; simpl in *; [|discriminate].
  inversion Hdivtag; subst. reflexivity.
Qed.

End SanitizerProofs.

(** C3, as stated, fails at the root: a [button] passed to [clean_html] has
    no parent, [_remove] does nothing and the early [return] skips the
    attribute rules. *)
Lemma clean_html_interactive_root_keeps_attributes :
  clean_html INTERACTIVE_ELEMENTS_listed
    (AsElement (Elem "button" [("onclick", "submit()")] (Some "OK") None []))
  = inr (AsElement (Elem "button" [("onclick", "submit()")] (Some "OK") None []))
  /\ ~ Forall (fun e => sanitized e = true)
        (iter (Elem "button" [("onclick", "submit()")] (Some "OK") None [])).
Proof.
  split; [reflexivity|].
  intros H. inversion H as [|? ? Hroot _]. discriminate Hroot.
Qed.

Lemma clean_html_attributes_witness :
  let t := AsElement
             (Elem "div" [("onclick", "go()"); ("class", "menu")] None None
                   [Elem "a" [("href", "javascript:void(0)"); ("id", "top")]
                         (Some "up") None [];
                    Elem "button" [("type", "submit")] (Some "OK") None []]) in
  let root' := Elem "div" [("class", "menu")] None None
                    [Elem "a" [("id", "top")] (Some "up") None []] in
  clean_html INTERACTIVE_ELEMENTS_listed t = inr (AsElement root')
  /\ getroot (AsElement root') = Some root'
  /\ Forall (fun e => sanitized e = true) (flat_map iter (getchildren root'))
  /\ sanitized root' = true.
Proof.
  intros t root'.
  split; [reflexivity | split; [reflexivity|]].
  destruct (clean_html_attributes INTERACTIVE_ELEMENTS_listed t
              (AsElement root') root' eq_refl eq_refl) as [Hbelow Hroot].
  split; [exact Hbelow | apply Hroot; reflexivity].
Defined.

Lemma clean_html_idempotent_witness :
  let t := AsElement
             (Elem "div" [("style", "color:red"); ("id", "main")] None None
                   [CommentNode " nav " None;
                    Elem "script" [] (Some "alert(1)") None [];
                    Elem "p" [("style", "display: none")] (Some "hidden") None []]) in
  let t1 := AsElement
              (Elem "div" [("id", "main")] None None
                    [Elem "p" [] (Some "") None []]) in
  clean_html INTERACTIVE_ELEMENTS_listed t = inr t1
  /\ exists t2, clean_html INTERACTIVE_ELEMENTS_listed t1 = inr t2
                /\ serialize t2 = serialize t1.
Proof.
  intros t t1. split; [reflexivity|].
  exact (clean_html_idempotent INTERACTIVE_ELEMENTS_listed t t1 eq_refl).
Defined.

Lemma div_not_listed : ~ In "div" INTERACTIVE_ELEMENTS_listed.
Proof.
  simpl. intros H.
  repeat (destruct H as [H|H]; [discriminate H|]). exact H.
Defined.

Lemma clean_html_display_none_witness :
  ~ In "div" INTERACTIVE_ELEMENTS_listed
  /\ clean_html INTERACTIVE_ELEMENTS_listed
       (AsElement (Elem "div" [("style", "display:none")] None None
                        [Elem "span" [] (Some "x") None []]))
     = inr (AsElement (Elem "div" [] (Some "") None [])).
Proof.
  split; [exact div_not_listed|].
  exact (clean_html_display_none INTERACTIVE_ELEMENTS_listed "x" div_not_listed).
Defined.

(** ** Address computer and inclusion pruner: proofs *)

Lemma tag_is_true t name : tag_is t name = true <-> t = TagStr name.
Proof.
  unfold tag_is. destruct t as [n |]; simpl.
  - rewrite String.eqb_eq. split; congruence.
  - split; discriminate.
Qed.

(** C9: on an [_ElementTree] whose root is absent or is not an [html]
    element, [traverse] raises [ValueError]; the call ends there, so no
    generator exists and no pair is yielded.  With an [html] root it hands
    out the generator of [_traverse] over that root. *)
Theorem traverse_root_check :
  (forall root : option Element,
      root = None \/ (exists r, root = Some r /\ tag r <> TagStr "html") ->
      exists msg, traverse (AsElementTree root) = inl (ValueError msg))
  /\ (forall r : Element,
         tag r = TagStr "html" ->
         traverse (AsElementTree (Some r)) = inr (_traverse r "/html")).
Proof.
  split.
  - intros root [-> | (r & -> & Hr)]; simpl.
    + eexists; reflexivity.
    + destruct (tag_is (tag r) "html") eqn:E.
      * apply tag_is_true in E. contradiction.
      * eexists; reflexivity.
  - intros r Hr. simpl.
    apply tag_is_true in Hr. rewrite Hr. reflexivity.
Qed.

Lemma traverse_root_check_witness :
  (exists msg, traverse (AsElementTree None) = inl (ValueError msg))
  /\ (exists msg,
         traverse (AsElementTree (Some (Elem "body" [] None None [])))
         = inl (ValueError msg))
  /\ traverse (AsElementTree
                 (Some (Elem "html" [] None None [Elem "body" [] None None []])))
     = inr [(Elem "body" [] None None [], "/html/body");
            (Elem "body" [] None None [], "/html/body");
            (Elem "html" [] None None [Elem "body" [] None None []], "/html")].
Proof.
  split; [|split].
  - apply (proj1 traverse_root_check None). left. reflexivity.
  - apply (proj1 traverse_root_check (Some (Elem "body" [] None None []))).
    right. exists (Elem "body" [] None None []).
    split; [reflexivity | discriminate].
  - exact (proj2 traverse_root_check
             (Elem "html" [] None None [Elem "body" [] None None []]) eq_refl).
Defined.

(** C6: with include-set [["/html/div/p[1]"]], the walk over
    [<html><div><p>A</p><p>B</p></div></html>] leaves [html], [div] and the
    first [p] as they are and blanks the second [p]: its text becomes empty
    and it has no children, but the element stays in the [div].  This holds
    for an element and for an element tree, with any recursion bound of at
    least three. *)
Theorem extraction_based_pruning_two_p (A B : string) (fuel : nat) :
  let tree :=
    Elem "html" [] None None
         [Elem "div" [] None None
               [Elem "p" [] (Some A) None []; Elem "p" [] (Some B) None []]] in
  let pruned :=
    Elem "html" [] None None
         [Elem "div" [] None None
               [Elem "p" [] (Some A) None []; Elem "p" [] (Some "") None []]] in
  extraction_based_pruning (3 + fuel) (AsElement tree) ["/html/div/p[1]"]
  = Some (inr (AsElement pruned))
  /\ extraction_based_pruning (3 + fuel) (AsElementTree (Some tree))
       ["/html/div/p[1]"]
     = Some (inr (AsElementTree (Some pruned))).
Proof.
  split; reflexivity.
Qed.

(** ** Address-set reducer: proofs *)

(** C4 fails on the code: [deduplicate_to_prune] compares with
    [str.startswith], so ["/html/body/pre"] is dropped as if it lay below
    ["/html/body/p"], and the path it alone covered is no longer covered. *)
Theorem deduplicate_to_prune_drops_sibling :
  deduplicate_to_prune ["/html/body/p"; "/html/body/pre"] = ["/html/body/p"]
  /\ covered ["/html/body/p"; "/html/body/pre"] "/html/body/pre" = true
  /\ covered (deduplicate_to_prune ["/html/body/p"; "/html/body/pre"])
       "/html/body/pre" = false.
Proof.
  repeat split; reflexivity.
Qed.

(** ** Control-character repair: proofs *)

(** X1: the last pass deletes every code point of the invalid range, so
    none is left as a literal in what [remove_control_characters] returns,
    whenever it returns. *)
Lemma remove_control_characters_no_literal (html out : pystr) :
  remove_control_characters html = inr out ->
  Forall (fun c => ILLEGAL_XML_CHARS_RE c = false) out.
Proof.
  unfold remove_control_characters.
  destruct (re_sub match_decimal_ref _ 0 _) as [e|html1]; [discriminate|].
  destruct (re_sub match_hex_ref _ 0 _) as [e|html2]; [discriminate|].
  intros E. injection E as <-. apply Forall_forall.
  intros c Hc. apply filter_In in Hc as [_ Hc].
  now apply negb_true_iff in Hc.
Qed.

Lemma remove_control_characters_no_literal_witness :
  remove_control_characters [97; 1; 98]%N = inr [97; 98]%N
  /\ Forall (fun c => ILLEGAL_XML_CHARS_RE c = false) [97; 98]%N.
Proof.
  split; [reflexivity|].
  exact (remove_control_characters_no_literal [97; 1; 98]%N [97; 98]%N eq_refl).
Defined.

(** C10 fails on the code: each substitution is a single pass, and deleting
    a reference can bring the pieces of another one together.  In
    ["&#&#1;1;"] the inner ["&#1;"] is deleted and the call returns the
    reference ["&#1;"] to the invalid code point 1. *)
Theorem remove_control_characters_leaves_reference :
  remove_control_characters (of_string "&#&#1;1;") = inr (of_string "&#1;")
  /\ has_illegal_ref (of_string "&#1;") = true.
Proof.
  split; reflexivity.
Qed.

(** ** Budget pruner: proofs *)

Section BudgetPrunerProofs.

Variable tokenizer : string -> list Z.

Local Open Scope Z_scope.

Lemma count_tokens_nonneg e : 0 <= count_tokens tokenizer e.
Proof. unfold count_tokens. lia. Qed.

Lemma sum_tokens_nonneg cs : 0 <= sum_tokens tokenizer cs.
Proof.
  induction cs as [|c cs IH]; simpl; [lia|].
  pose proof (count_tokens_nonneg c). lia.
Qed.

(** An element that fits is returned as it is, whatever the direction. *)
Lemma prune_by_tokens_fits fuel ele max_tokens reversed :
  count_tokens tokenizer ele <= max_tokens ->
  prune_by_tokens tokenizer (S fuel) ele max_tokens reversed
  = Some (ele, Return None).
Proof.
  intros H. simpl. apply Z.leb_le in H. now rewrite H.
Qed.


Lemma sum_tokens_cons c cs :
  sum_tokens tokenizer (c :: cs)
  = count_tokens tokenizer c + sum_tokens tokenizer cs.
Proof. reflexivity. Qed.

Lemma sum_tokens_firstn_S cs : forall k child,
  nth_error cs k = Some child ->
  sum_tokens tokenizer (firstn (S k) cs)
  = sum_tokens tokenizer (firstn k cs) + count_tokens tokenizer child.
Proof.
  induction cs as [|c cs IH]; intros [|k] child H; try discriminate H.
  - injection H as <-. cbn [firstn]. rewrite !sum_tokens_cons. cbn. lia.
  - change (firstn (S (S k)) (c :: cs)) with (c :: firstn (S k) cs).
    change (firstn (S k) (c :: cs)) with (c :: firstn k cs).
    rewrite !sum_tokens_cons, (IH k child H). lia.
Qed.

Lemma sum_tokens_zero cs :
  sum_tokens tokenizer cs <= 0 ->
  Forall (fun c => count_tokens tokenizer c = 0) cs.
Proof.
  induction cs as [|c cs IH]; intros H; [constructor|].
  rewrite sum_tokens_cons in H.
  pose proof (count_tokens_nonneg c). pose proof (sum_tokens_nonneg cs).
  constructor; [lia | apply IH; lia].
Qed.

(** What the loop leaves in [idx], [child] and [acc_tokens]: [child] is the
    one at position [idx]; every child before it fitted, with the children
    before it, in what was left of the budget when the loop was entered;
    and either [child] is the first that does not fit and [acc_tokens]
    counts the children before it, or the loop ran to its end, [child] is
    the last one and [acc_tokens] counts all the children. *)
Lemma scan_spec rest : forall required idx acc child i c a,
  scan tokenizer required idx acc child rest = (i, c, a) ->
  exists k : nat,
    i = (idx + k)%nat
    /\ (k <= List.length rest)%nat
    /\ nth_error (child :: rest) k = Some c
    /\ acc + sum_tokens tokenizer (firstn k (child :: rest)) <= a
    /\ sum_tokens tokenizer (firstn k (child :: rest)) <= Z.max 0 (required - acc)
    /\ (forall j : nat,
          (j < k)%nat ->
          acc + sum_tokens tokenizer (firstn (S j) (child :: rest)) <= required)
    /\ ((required < acc + sum_tokens tokenizer (firstn (S k) (child :: rest))
         /\ a = acc + sum_tokens tokenizer (firstn k (child :: rest)))
        \/ (k = List.length rest
            /\ acc + sum_tokens tokenizer (child :: rest) <= required
            /\ a = acc + sum_tokens tokenizer (child :: rest))).
Proof.
  induction rest as [|next rest IH]; intros required idx acc child i c a H;
    cbn [scan] in H; cbv zeta in H;
    destruct (Z.gtb_spec (acc + count_tokens tokenizer child) required)
      as [Hgt|Hle].
  - injection H as <- <- <-. exists 0%nat.
    cbn [firstn nth_error List.length]. rewrite !sum_tokens_cons.
    change (sum_tokens tokenizer []) with 0.
    do 5 (split; [first [reflexivity | lia]|]).
    split; [intros j Hj; lia | left; lia].
  - injection H as <- <- <-. exists 0%nat.
    cbn [firstn nth_error List.length]. rewrite !sum_tokens_cons.
    change (sum_tokens tokenizer []) with 0.
    pose proof (count_tokens_nonneg child).
    do 5 (split; [first [reflexivity | lia]|]).
    split; [intros j Hj; lia | right; lia].
  - injection H as <- <- <-. exists 0%nat.
    cbn [firstn nth_error List.length]. rewrite !sum_tokens_cons.
    change (sum_tokens tokenizer []) with 0.
    do 5 (split; [first [reflexivity | lia]|]).
    split; [intros j Hj; lia | left; lia].
  - apply IH in H as (k & -> & Hk & Hnth & Hsum & Hmax & Hall & Hexit).
    exists (S k).
    change (firstn (S (S k)) (child :: next :: rest))
      with (child :: firstn (S k) (next :: rest)).
    change (firstn (S k) (child :: next :: rest))
      with (child :: firstn k (next :: rest)).
    rewrite !sum_tokens_cons.
    pose proof (count_tokens_nonneg child).
    split; [lia|]. split; [cbn [List.length]; lia|].
    split; [exact Hnth|]. split; [lia|]. split; [lia|]. split.
    + intros [|j] Hj.
      * cbn [firstn]. rewrite sum_tokens_cons.
        change (sum_tokens tokenizer []) with 0. lia.
      * change (firstn (S (S j)) (child :: next :: rest))
          with (child :: firstn (S j) (next :: rest)).
        rewrite sum_tokens_cons.
        assert (Hj' : (j < k)%nat) by lia. specialize (Hall j Hj'). lia.
    + destruct Hexit as [[H1 H2] | (H1 & H2 & H3)]; [left | right].
      * split; lia.
      * rewrite sum_tokens_cons in H2, H3.
        cbn [List.length]. repeat split; lia.
Qed.

Lemma boundary_position_le required children k k' leftover leftover' :
  boundary_position tokenizer required children k leftover ->
  boundary_position tokenizer required children k' leftover' ->
  (k' <= k)%nat.
Proof.
  intros [_ Hexit] [Hall' Hexit'].
  destruct (Nat.le_gt_cases k' k) as [Hle|Hlt]; [exact Hle | exfalso].
  specialize (Hall' k Hlt).
  destruct Hexit as [[H1 _] | (H1 & H2 & _)]; [lia|].
  destruct Hexit' as [[H1' _] | (H1' & _)]; [|lia].
  rewrite firstn_all2 in H1' by lia. lia.
Qed.

(** [boundary_position] leaves no choice: it holds of one position and one
    budget at most. *)
Lemma boundary_position_unique required children k k' leftover leftover' :
  boundary_position tokenizer required children k leftover ->
  boundary_position tokenizer required children k' leftover' ->
  k = k' /\ leftover = leftover'.
Proof.
  intros H H'.
  assert (Hk : k = k').
  { pose proof (boundary_position_le _ _ _ _ _ _ H H').
    pose proof (boundary_position_le _ _ _ _ _ _ H' H). lia. }
  subst k'. split; [reflexivity|].
  destruct H as [_ [[H1 ->] | (H1 & H2 & ->)]],
           H' as [_ [[H1' ->] | (H1' & H2' & ->)]]; try reflexivity.
  - rewrite firstn_all2 in H1 by lia. lia.
  - rewrite firstn_all2 in H1' by lia. lia.
Qed.

Lemma depth_child n a x l cs k c :
  nth_error cs k = Some c -> (depth c < depth (Elem n a x l cs))%nat.
Proof.
  simpl. revert k. induction cs as [|c0 cs IH]; intros [|k] H; simpl in *;
    try discriminate.
  - inversion H; subst. lia.
  - apply IH in H. lia.
Qed.

Lemma update_nth_last k child cs :
  (k < List.length cs)%nat ->
  update_nth k child (firstn (k + 1) cs) = (firstn k cs ++ [child])%list.
Proof.
  revert cs. induction k as [|k IH]; intros [|c cs] H; simpl in *; try lia.
  - destruct cs; reflexivity.
  - f_equal. apply IH. lia.
Qed.

Lemma remove_children_leaf ele :
  getchildren ele = [] -> remove_children ele = ele.
Proof.
  destruct ele; simpl; intros H; [now subst | reflexivity].
Qed.

(** One step of the favor-left pruner on an element that does not fit and
    has children. *)
Lemma prune_by_tokens_step fuel n a x l first rest max_tokens :
  max_tokens < count_tokens tokenizer (Elem n a x l (first :: rest)) ->
  prune_by_tokens tokenizer (S fuel) (Elem n a x l (first :: rest)) max_tokens false
  = let required := max_tokens - count_tokens tokenizer (Elem n a x l []) in
    let '(idx, child, acc) := scan tokenizer required 0 0 first rest in
    match prune_by_tokens tokenizer fuel child (required - acc) false with
    | None => None
    | Some (child', Raise e) =>
        Some (Elem n a x l (update_nth idx child' (firstn (idx + 1) (first :: rest))),
              Raise e)
    | Some (child', Return _) =>
        Some (Elem n a x l (update_nth idx child' (firstn (idx + 1) (first :: rest))),
              Return (Some (Elem n a x l
                              (update_nth idx child'
                                          (firstn (idx + 1) (first :: rest))))))
    end.
Proof.
  intros H. apply Z.leb_gt in H.
  cbn [prune_by_tokens]. rewrite H.
  cbn [getchildren remove_children set_children extend app].
  destruct (scan tokenizer _ 0 0 first rest) as [[idx child] acc].
  reflexivity.
Qed.

(** The favor-left pruner returns whenever the recursion bound is at least
    the depth of the element.  An element that does not fit keeps its shell
    and a prefix of its children: those before the boundary position
    untouched, the child at that position as the recursive call left it.
    The untouched children never use more than the budget that was left for
    them. *)
Lemma prune_by_tokens_shape : forall fuel ele max_tokens,
  (depth ele <= fuel)%nat ->
  exists ele' value,
    prune_by_tokens tokenizer fuel ele max_tokens false
    = Some (ele', Return value)
    /\ (count_tokens tokenizer ele <= max_tokens -> ele' = ele /\ value = None)
    /\ (max_tokens < count_tokens tokenizer ele ->
        (getchildren ele = [] /\ ele' = ele /\ value = None)
        \/ exists (k : nat) child boundary leftover value',
            nth_error (getchildren ele) k = Some child
            /\ boundary_position tokenizer
                 (max_tokens - count_tokens tokenizer (remove_children ele))
                 (getchildren ele) k leftover
            /\ prune_by_tokens tokenizer (Nat.pred fuel) child leftover false
               = Some (boundary, Return value')
            /\ ele' = set_children (firstn k (getchildren ele) ++ [boundary])%list ele
            /\ value = Some ele'
            /\ sum_tokens tokenizer (firstn k (getchildren ele))
               <= Z.max 0 (max_tokens - count_tokens tokenizer (remove_children ele))).
Proof.
  induction fuel as [|fuel IH]; intros ele max_tokens Hd.
  { destruct ele; simpl in Hd; lia. }
  destruct (Z.leb_spec (count_tokens tokenizer ele) max_tokens) as [Hfit | Hover].
  { exists ele, None. rewrite prune_by_tokens_fits by assumption.
    split; [reflexivity | split; [split; reflexivity | lia]]. }
  apply Z.leb_gt in Hover as Hb.
  destruct ele as [n a x l [|first rest] | x l].
  - exists (Elem n a x l []), None. simpl. rewrite Hb.
    split; [reflexivity | split; [split; reflexivity | left; repeat split]].
  - rewrite prune_by_tokens_step by assumption.
    cbv zeta. cbn [getchildren remove_children set_children Nat.pred].
    set (required := max_tokens - count_tokens tokenizer (Elem n a x l [])).
    destruct (scan tokenizer required 0 0 first rest) as [[idx child] acc] eqn:Escan.
    apply scan_spec in Escan as (k & -> & Hk & Hnth & Hsum & Hmax & Hall & Hexit).
    simpl Nat.add in *.
    assert (Hdc : (depth child <= fuel)%nat).
    { pose proof (depth_child n a x l _ _ _ Hnth). lia. }
    destruct (IH child (required - acc) Hdc) as (child' & v & Hrec & _).
    rewrite Hrec.
    eexists _, _. split; [reflexivity|].
    split; [lia|]. intros _. right.
    exists k, child, child', (required - acc), v.
    rewrite update_nth_last by (simpl; lia).
    split; [exact Hnth|]. split; [|split; [exact Hrec|]].
    + split.
      * intros j Hj. specialize (Hall j Hj). lia.
      * destruct Hexit as [[H1 H2] | (H1 & H2 & H3)]; [left | right].
        -- split; lia.
        -- cbn [List.length]. repeat split; lia.
    + split; [reflexivity|]. split; [reflexivity|].
      rewrite Z.sub_0_r in Hmax. exact Hmax.
  - exists (CommentNode x l), None. simpl. rewrite Hb.
    split; [reflexivity | split; [split; reflexivity | left; repeat split]].
Qed.

(** C1 (amended): with [reversed=False] and a recursion bound of at least
    the depth of the element, [prune_by_tokens] returns.  An element whose
    serialization has at most [max_tokens] tokens is left unchanged.
    Otherwise, when [max_tokens] is at least the token count of the
    childless shell, the call returns the element, which keeps its shell
    and a prefix of its children that ends in the boundary child.  The
    boundary child is the first child that does not fit, with the children
    before it, in the budget left after the shell, or the last child when
    all fit.  The children before it are unchanged, and their token counts
    plus that of the shell are at most [max_tokens].  The boundary child is
    always kept, as the recursive call leaves it with the budget the
    children before it left (or all the children, when all fit). *)
Theorem prune_by_tokens_budget (fuel : nat) (ele : Element) (max_tokens : Z) :
  (depth ele <= fuel)%nat ->
  count_tokens tokenizer (remove_children ele) <= max_tokens ->
  exists ele' value,
    prune_by_tokens tokenizer fuel ele max_tokens false
    = Some (ele', Return value)
    /\ (count_tokens tokenizer ele <= max_tokens ->
        ele' = ele /\ count_tokens tokenizer ele' <= max_tokens)
    /\ (max_tokens < count_tokens tokenizer ele ->
        exists (k : nat) child boundary leftover value',
          nth_error (getchildren ele) k = Some child
          /\ boundary_position tokenizer
               (max_tokens - count_tokens tokenizer (remove_children ele))
               (getchildren ele) k leftover
          /\ prune_by_tokens tokenizer (Nat.pred fuel) child leftover false
             = Some (boundary, Return value')
          /\ ele' = set_children (firstn k (getchildren ele) ++ [boundary])%list ele
          /\ value = Some ele'
          /\ count_tokens tokenizer (remove_children ele)
             + sum_tokens tokenizer (firstn k (getchildren ele)) <= max_tokens).
Proof.
  intros Hd Hshell.
  destruct (prune_by_tokens_shape fuel ele max_tokens Hd)
    as (ele' & value & Hrun & Hfit & Hover).
  exists ele', value. split; [exact Hrun|]. split.
  - intros H. destruct (Hfit H) as [-> _]. auto.
  - intros H.
    destruct (Hover H)
      as [[Hnil _] | (k & child & boundary & leftover & v
                      & Hnth & Hpos & Hrec & Heq & Hval & Hsum)].
    + rewrite (remove_children_leaf _ Hnil) in Hshell. lia.
    + exists k, child, boundary, leftover, v.
      repeat (split; [assumption|]). lia.
Qed.

(** C5 (amended): with [reversed=False], on an element that does not fit
    and whose shell alone uses up the budget, [prune_by_tokens] returns and
    the element is childless afterwards exactly when it was childless
    before.  An element with children is returned with its shell and a
    prefix of its children that ends in the boundary child.  The boundary
    child is the first child that counts more tokens than what the shell
    left of the budget (the first child of all when the shell alone exceeds
    the budget), or the last child when there is none; the children before
    it are unchanged and count no tokens at all; the boundary child is as
    the recursive call leaves it with what the shell left of the budget. *)
Theorem prune_by_tokens_shell_over_budget (fuel : nat) (ele : Element)
        (max_tokens : Z) :
  (depth ele <= fuel)%nat ->
  max_tokens < count_tokens tokenizer ele ->
  max_tokens - count_tokens tokenizer (remove_children ele) <= 0 ->
  exists ele' value,
    prune_by_tokens tokenizer fuel ele max_tokens false
    = Some (ele', Return value)
    /\ (getchildren ele' = [] <-> getchildren ele = [])
    /\ (getchildren ele <> [] ->
        exists (k : nat) child boundary value',
          nth_error (getchildren ele) k = Some child
          /\ Forall (fun c => count_tokens tokenizer c
                              <= max_tokens
                                 - count_tokens tokenizer (remove_children ele))
                    (firstn k (getchildren ele))
          /\ (max_tokens - count_tokens tokenizer (remove_children ele)
              < count_tokens tokenizer child
              \/ S k = List.length (getchildren ele))
          /\ Forall (fun c => count_tokens tokenizer c = 0)
                    (firstn k (getchildren ele))
          /\ prune_by_tokens tokenizer (Nat.pred fuel) child
               (max_tokens - count_tokens tokenizer (remove_children ele)) false
             = Some (boundary, Return value')
          /\ ele' = set_children (firstn k (getchildren ele) ++ [boundary])%list ele
          /\ value = Some ele').
Proof.
  intros Hd Hover Hshell.
  destruct (prune_by_tokens_shape fuel ele max_tokens Hd)
    as (ele' & value & Hrun & _ & Hshape).
  exists ele', value. split; [exact Hrun|].
  destruct (Hshape Hover)
    as [(Hnil & -> & _) | (k & child & boundary & leftover & v
                           & Hnth & [Hall Hexit] & Hrec & -> & Hval & Hsum)].
  - split; [tauto | contradiction].
  - assert (Hk : (k < List.length (getchildren ele))%nat)
      by (apply nth_error_Some; congruence).
    set (required := max_tokens - count_tokens tokenizer (remove_children ele)) in *.
    pose proof (sum_tokens_nonneg (firstn k (getchildren ele))) as Hnn.
    pose proof (sum_tokens_nonneg (getchildren ele)) as Hnn'.
    assert (Hzero : sum_tokens tokenizer (firstn k (getchildren ele)) = 0) by lia.
    assert (Hz : Forall (fun c => count_tokens tokenizer c = 0)
                        (firstn k (getchildren ele)))
      by (apply sum_tokens_zero; lia).
    assert (Hleft : leftover = required)
      by (destruct Hexit as [[_ ->] | (_ & H2 & ->)]; lia).
    split.
    + destruct ele as [n a x l c | x l]; [|destruct k; discriminate].
      cbn [getchildren set_children] in *. split; intros H.
      * destruct (firstn k c); discriminate.
      * subst c. simpl in Hk. lia.
    + intros _. exists k, child, boundary, v.
      split; [exact Hnth|]. split; [|split; [|split; [exact Hz|]]].
      * destruct k as [|k]; [constructor|].
        assert (H0 : (0 < S k)%nat) by lia. specialize (Hall 0%nat H0).
        pose proof (sum_tokens_nonneg (firstn 1 (getchildren ele))).
        eapply Forall_impl; [|exact Hz]. intros c Hc. cbv beta in Hc. lia.
      * destruct Hexit as [[H1 _] | (H1 & _)]; [left | right; exact H1].
        rewrite (sum_tokens_firstn_S _ _ _ Hnth) in H1. lia.
      * rewrite <- Hleft. split; [exact Hrec|]. split; [reflexivity | exact Hval].
Qed.

End BudgetPrunerProofs.

(** C1, as stated, fails on the code: the boundary child is always put back.
    With one token per character and a budget of 10, [<ul/>] alone fits (5
    tokens), the first [li] does not fit in the 5 tokens left and has no
    children to give up, and the call returns
    [<ul><li>alpha</li></ul>], 23 tokens. *)
Lemma prune_by_tokens_exceeds_budget :
  let ul := Elem "ul" [] None None
                 [Elem "li" [] (Some "alpha") None [];
                  Elem "li" [] (Some "beta") None []] in
  let ul' := Elem "ul" [] None None [Elem "li" [] (Some "alpha") None []] in
  (count_tokens char_tokenizer (remove_children ul) <= 10)%Z
  /\ prune_by_tokens char_tokenizer 2 ul 10 false = Some (ul', Return (Some ul'))
  /\ to_string ul' = "<ul><li>alpha</li></ul>"
  /\ ~ (count_tokens char_tokenizer ul' <= 10)%Z.
Proof.
  cbv zeta. repeat split; try reflexivity.
  - vm_compute. discriminate.
  - vm_compute. intros H. apply H. reflexivity.
Qed.

Lemma prune_by_tokens_budget_witness :
  let ul := Elem "ul" [] None None
                 [Elem "li" [] (Some "alpha") None [];
                  Elem "li" [] (Some "beta") None []] in
  (depth ul <= 2)%nat
  /\ (count_tokens char_tokenizer (remove_children ul) <= 20)%Z
  /\ exists ele' value,
      prune_by_tokens char_tokenizer 2 ul 20 false = Some (ele', Return value)
      /\ ((count_tokens char_tokenizer ul <= 20)%Z ->
          ele' = ul /\ (count_tokens char_tokenizer ele' <= 20)%Z)
      /\ ((20 < count_tokens char_tokenizer ul)%Z ->
          exists (k : nat) child boundary leftover value',
            nth_error (getchildren ul) k = Some child
            /\ boundary_position char_tokenizer
                 (20 - count_tokens char_tokenizer (remove_children ul))
                 (getchildren ul) k leftover
            /\ prune_by_tokens char_tokenizer (Nat.pred 2) child leftover false
               = Some (boundary, Return value')
            /\ ele' = set_children (firstn k (getchildren ul) ++ [boundary])%list ul
            /\ value = Some ele'
            /\ (count_tokens char_tokenizer (remove_children ul)
                + sum_tokens char_tokenizer (firstn k (getchildren ul)) <= 20)%Z).
Proof.
  intros ul.
  assert (Hd : (depth ul <= 2)%nat) by (vm_compute; constructor).
  assert (Hs : (count_tokens char_tokenizer (remove_children ul) <= 20)%Z)
    by (vm_compute; discriminate).
  split; [exact Hd | split; [exact Hs|]].
  exact (prune_by_tokens_budget char_tokenizer 2 ul 20 Hd Hs).
Defined.

(** C2 fails on the code: with [reversed=True] the call on an element that
    does not fit detaches the children and then raises [TypeError], because
    [reversed(children)] calls the parameter, a [bool]. *)
Theorem prune_by_tokens_reversed_raises :
  prune_by_tokens char_tokenizer 2
    (Elem "ul" [] None None
          [Elem "li" [] (Some "alpha") None [];
           Elem "li" [] (Some "beta") None []])
    20 true
  = Some (Elem "ul" [] None None [],
          Raise (TypeError "'bool' object is not callable")).
Proof.
  reflexivity.
Qed.

(** C5, as stated, fails on the code: [<div/>] alone has 6 tokens, more than
    the budget of 3, and the [div] still has its child when the call
    returns. *)
Lemma prune_by_tokens_keeps_child_over_budget :
  let div := Elem "div" [] None None [Elem "p" [] (Some "x") None []] in
  (3 < count_tokens char_tokenizer div)%Z
  /\ (3 - count_tokens char_tokenizer (remove_children div) <= 0)%Z
  /\ prune_by_tokens char_tokenizer 2 div 3 false = Some (div, Return (Some div))
  /\ getchildren div <> [].
Proof.
  cbv zeta. repeat split; try reflexivity; try discriminate.
Qed.

Lemma prune_by_tokens_shell_over_budget_witness :
  let div := Elem "div" [] None None
                  [Elem "p" [] (Some "a") None [];
                   Elem "p" [] (Some "x") None [];
                   Elem "p" [] (Some "b") None []] in
  (depth div <= 2)%nat
  /\ (0 < count_tokens x_tokenizer div)%Z
  /\ (0 - count_tokens x_tokenizer (remove_children div) <= 0)%Z
  /\ exists ele' value,
      prune_by_tokens x_tokenizer 2 div 0 false = Some (ele', Return value)
      /\ (getchildren ele' = [] <-> getchildren div = [])
      /\ (getchildren div <> [] ->
          exists (k : nat) child boundary value',
            nth_error (getchildren div) k = Some child
            /\ Forall (fun c => (count_tokens x_tokenizer c
                                 <= 0 - count_tokens x_tokenizer
                                          (remove_children div))%Z)
                      (firstn k (getchildren div))
            /\ ((0 - count_tokens x_tokenizer (remove_children div)
                 < count_tokens x_tokenizer child)%Z
                \/ S k = List.length (getchildren div))
            /\ Forall (fun c => count_tokens x_tokenizer c = 0%Z)
                      (firstn k (getchildren div))
            /\ prune_by_tokens x_tokenizer (Nat.pred 2) child
                 (0 - count_tokens x_tokenizer (remove_children div))%Z false
               = Some (boundary, Return value')
            /\ ele' = set_children (firstn k (getchildren div) ++ [boundary])%list div
            /\ value = Some ele').
Proof.
  intros div.
  assert (Hd : (depth div <= 2)%nat) by (vm_compute; constructor).
  assert (Ho : (0 < count_tokens x_tokenizer div)%Z) by reflexivity.
  assert (Hs : (0 - count_tokens x_tokenizer (remove_children div) <= 0)%Z)
    by (vm_compute; discriminate).
  split; [exact Hd | split; [exact Ho | split; [exact Hs|]]].
  exact (prune_by_tokens_shell_over_budget x_tokenizer 2 div 0 Hd Ho Hs).
Defined.

(** ** Breadth-first walk: proofs *)


Section BreadthFirst.

Variable callback : Element -> bool.
Variable enable_interruption : bool.

Lemma flat_map_iter_length_app (a b : list Element) :
  List.length (flat_map iter (a ++ b))
  = List.length (flat_map iter a) + List.length (flat_map iter b).
Proof. now rewrite flat_map_app, length_app. Qed.

Lemma iter_length e :
  List.length (iter e) = S (List.length (flat_map iter (getchildren e))).
Proof. destruct e; reflexivity. Qed.

Lemma reach_eq e :
  reach callback enable_interruption e
  = e :: (if enable_interruption && callback e then []
          else flat_map (reach callback enable_interruption) (getchildren e)).
Proof.
  destruct e; simpl; [reflexivity|].
  now destruct (enable_interruption && callback _).
Qed.

(** The loop empties any queue whose nodes, with all their descendants, are
    no more than [fuel], and calls back on exactly the nodes reachable from
    the queue, each once. *)
Lemma breadth_first_loop_visits : forall fuel queue,
  List.length (flat_map iter queue) <= fuel ->
  exists visited,
    breadth_first_loop fuel callback enable_interruption queue = Some visited
    /\ Permutation visited
         (flat_map (reach callback enable_interruption) queue).
Proof.
  induction fuel as [|fuel IH]; intros [|current queue] Hlen.
  - exists []. split; [reflexivity | constructor].
  - simpl in Hlen. rewrite length_app, iter_length in Hlen. simpl in Hlen. lia.
  - exists []. split; [reflexivity | constructor].
  - simpl in Hlen. rewrite length_app, iter_length in Hlen.
    simpl breadth_first_loop.
    set (queue' := if enable_interruption && callback current then queue
                   else (queue ++ getchildren current)%list).
    assert (Hq : List.length (flat_map iter queue') <= fuel).
    { subst queue'. destruct (enable_interruption && callback current).
      - simpl in Hlen. lia.
      - rewrite flat_map_iter_length_app. simpl in Hlen. lia. }
    destruct (IH queue' Hq) as (visited & -> & Hperm).
    exists (current :: visited). split; [reflexivity|].
    simpl flat_map. rewrite reach_eq. simpl. constructor.
    subst queue'. destruct (enable_interruption && callback current).
    + exact Hperm.
    + rewrite flat_map_app in Hperm.
      eapply Permutation_trans; [exact Hperm | apply Permutation_app_comm].
Qed.

End BreadthFirst.

Lemma reach_no_interruption callback e : reach callback false e = iter e.
Proof.
  induction e as [n a x l c IHc | x l] using Element_ind2; simpl; [|reflexivity].
  f_equal. induction IHc as [|e c He _ IH]; simpl; [reflexivity|].
  now rewrite He, IH.
Qed.

(** X10: without interruption, [breadth_first_travel] hands every node of
    the tree to the callback exactly once, the starting element first. *)
Theorem breadth_first_travel_visits_all (fuel : nat) (element : Element)
        (callback : Element -> bool) :
  List.length (iter element) <= fuel ->
  exists rest,
    breadth_first_travel fuel element callback false = Some (element :: rest)
    /\ Permutation (element :: rest) (iter element).
Proof.
  intros Hfuel. unfold breadth_first_travel.
  destruct (breadth_first_loop_visits callback false fuel [element])
    as (visited & Hrun & Hperm).
  { simpl. rewrite app_nil_r. exact Hfuel. }
  simpl in Hperm. rewrite app_nil_r, reach_no_interruption in Hperm.
  destruct fuel as [|fuel]; [discriminate Hrun|].
  simpl in Hrun |- *.
  destruct (breadth_first_loop fuel callback false (getchildren element))
    as [rest|]; [|discriminate Hrun].
  inversion Hrun; subst. exists rest. split; [reflexivity | exact Hperm].
Qed.

(** X11: with interruption enabled, the callback is called exactly on the
    nodes that can be reached from the starting element without passing
    below a node on which it returned true, each once. *)
Theorem breadth_first_travel_interruption (fuel : nat) (element : Element)
        (callback : Element -> bool) :
  List.length (iter element) <= fuel ->
  exists visited,
    breadth_first_travel fuel element callback true = Some visited
    /\ Permutation visited (reach callback true element).
Proof.
  intros Hfuel. unfold breadth_first_travel.
  destruct (breadth_first_loop_visits callback true fuel [element])
    as (visited & Hrun & Hperm).
  { simpl. rewrite app_nil_r. exact Hfuel. }
  exists visited. split; [exact Hrun|].
  simpl in Hperm. now rewrite app_nil_r in Hperm.
Qed.

Lemma breadth_first_travel_visits_all_witness :
  let leaf name := Elem name [] None None [] in
  let body := Elem "body" [] None None
                   [Elem "div" [] None None [leaf "p"]; leaf "hr"] in
  List.length (iter body) <= 4
  /\ exists rest,
      breadth_first_travel 4 body (fun _ => true) false = Some (body :: rest)
      /\ Permutation (body :: rest) (iter body).
Proof.
  intros leaf body.
  assert (H : List.length (iter body) <= 4) by (vm_compute; constructor).
  split; [exact H|].
  exact (breadth_first_travel_visits_all 4 body (fun _ => true) H).
Defined.

Lemma breadth_first_travel_interruption_witness :
  let leaf name := Elem name [] None None [] in
  let body := Elem "body" [] None None
                   [Elem "div" [] None None [leaf "p"]; leaf "hr"] in
  List.length (iter body) <= 4
  /\ exists visited,
      breadth_first_travel 4 body (fun e => tag_is (tag e) "div") true
      = Some visited
      /\ Permutation visited (reach (fun e => tag_is (tag e) "div") true body).
Proof.
  intros leaf body.
  assert (H : List.length (iter body) <= 4) by (vm_compute; constructor).
  split; [exact H|].
  exact (breadth_first_travel_interruption 4 body
           (fun e => tag_is (tag e) "div") H).
Defined.

(** ** Address computer: further proofs *)

Lemma _traverse_eq root xpath :
  _traverse root xpath
  = (traverse_children _traverse xpath (count_tags (getchildren root))
       (getchildren root) []
     ++ [(root, xpath)])%list.
Proof.
  destruct root as [n a x l c | x l]; [|reflexivity].
  simpl. f_equal.
  generalize (@nil (Tag * nat)) as tag_order.
  generalize (count_tags c) as tag_counts.
  induction c as [|e c IHc]; intros tag_counts tag_order; simpl; [reflexivity|].
  now rewrite IHc.
Qed.

Lemma Permutation_twice {A : Type} (a b a2 b2 : list A) :
  Permutation a (a2 ++ a2)%list -> Permutation b (b2 ++ b2)%list ->
  Permutation (a ++ b)%list ((a2 ++ b2) ++ (a2 ++ b2))%list.
Proof.
  intros Ha Hb.
  eapply Permutation_trans; [apply Permutation_app; eassumption|].
  rewrite <- !app_assoc. apply Permutation_app_head.
  rewrite !app_assoc. apply Permutation_app_tail.
  apply Permutation_app_comm.
Qed.

(** X7: drained on an unchanged tree, the generator of [_traverse] yields
    the starting node once, as its last pair and with the base address, and
    every node below it twice. *)
Theorem _traverse_yields_twice (root : Element) (xpath : string) :
  last (_traverse root xpath) (root, xpath) = (root, xpath)
  /\ Permutation (map fst (_traverse root xpath))
       (root :: flat_map iter (getchildren root)
             ++ flat_map iter (getchildren root))%list.
Proof.
  split.
  - rewrite _traverse_eq. apply last_last.
  - revert xpath.
    induction root as [n a x l c IHc | x l] using Element_ind2; intros xpath;
      [|simpl; apply Permutation_refl].
    rewrite _traverse_eq, map_app. simpl getchildren. simpl map at 2.
    eapply Permutation_trans; [apply Permutation_app_comm|]. simpl.
    constructor.
    generalize (@nil (Tag * nat)) as tag_order.
    generalize (count_tags c) as tag_counts.
    induction IHc as [|e c He _ IH]; intros tag_counts tag_order; simpl;
      [constructor|].
    rewrite !map_app. simpl map.
    change (map fst (_traverse e (child_xpath xpath tag_counts tag_order e))
            ++ e :: map fst (traverse_children _traverse xpath tag_counts c
                               (dd_incr (tag e) tag_order)))%list
      with (map fst (_traverse e (child_xpath xpath tag_counts tag_order e))
            ++ [e]
            ++ map fst (traverse_children _traverse xpath tag_counts c
                          (dd_incr (tag e) tag_order)))%list.
    rewrite app_assoc.
    apply Permutation_twice; [|apply IH].
    eapply Permutation_trans.
    + apply Permutation_app_tail. apply He.
    + rewrite (iter_eq e). simpl.
      constructor. rewrite <- app_assoc.
      apply Permutation_app_head.
      eapply Permutation_trans; [apply Permutation_app_comm|]. reflexivity.
Qed.

Lemma startswith_app s t : startswith (s ++ t) s = true.
Proof.
  induction s as [|c s IH]; simpl; [now destruct t|].
  now rewrite Ascii.eqb_refl.
Qed.

Lemma startswith_trans a b c :
  startswith a b = true -> startswith b c = true -> startswith a c = true.
Proof.
  revert a b. induction c as [|x c IH]; intros a b Hab Hbc.
  - now destruct a.
  - destruct b as [|y b]; cbn [startswith] in Hbc; [discriminate|].
    apply andb_prop in Hbc as [Hxy Hbc]. apply Ascii.eqb_eq in Hxy. subst y.
    destruct a as [|z a]; cbn [startswith] in Hab |- *; [discriminate|].
    apply andb_prop in Hab as [Hxz Hab]. rewrite Hxz. simpl. eauto.
Qed.

Lemma child_xpath_extends xpath tag_counts tag_order ele :
  startswith (child_xpath xpath tag_counts tag_order ele) xpath = true.
Proof.
  unfold child_xpath. destruct (_ <? _)%nat; apply startswith_app.
Qed.

Lemma startswith_refl s : startswith s s = true.
Proof.
  induction s as [|c s IH]; simpl; [reflexivity|].
  now rewrite Ascii.eqb_refl.
Qed.

(** X8: every address the generator of [_traverse] yields starts with the
    base address it was given. *)
Theorem _traverse_addresses_extend_base (root : Element) (xpath : string) :
  Forall (fun pair => startswith (snd pair) xpath = true) (_traverse root xpath).
Proof.
  revert xpath.
  induction root as [n a x l c IHc | x l] using Element_ind2; intros xpath;
    rewrite _traverse_eq; apply Forall_app; split.
  - simpl getchildren.
    generalize (@nil (Tag * nat)) as tag_order.
    generalize (count_tags c) as tag_counts.
    induction IHc as [|e c He _ IH]; intros tag_counts tag_order; simpl;
      [constructor|].
    apply Forall_app. split; [|constructor; [|apply IH]].
    + eapply Forall_impl; [|apply He]. simpl. intros pair H.
      eapply startswith_trans; [exact H | apply child_xpath_extends].
    + apply child_xpath_extends.
  - constructor; [apply startswith_refl | constructor].
  - constructor.
  - constructor; [apply startswith_refl | constructor].
Qed.

Lemma split_slash_cons s : exists w ws, split_slash s = w :: ws.
Proof.
  destruct s as [|c s]; simpl; [eauto|].
  destruct (Ascii.eqb c "/"); [eauto|].
  destruct (split_slash s); eauto.
Qed.

Lemma concat_cons2 sep (x y : string) l :
  String.concat sep (x :: y :: l) = x ++ sep ++ String.concat sep (y :: l).
Proof. reflexivity. Qed.

(** Joining what [split("/")] gives with ["/"] restores the string. *)
Lemma join_split_slash (s : string) :
  String.concat "/" (split_slash s) = s.
Proof.
  induction s as [|c s IH]; [reflexivity|].
  cbn [split_slash].
  destruct (split_slash_cons s) as (w & ws & E). rewrite E in *.
  destruct (Ascii.eqb_spec c "/") as [->|_].
  - rewrite concat_cons2, IH. reflexivity.
  - destruct ws as [|w' ws].
    + simpl in *. now rewrite IH.
    + rewrite concat_cons2 in *. rewrite <- IH. reflexivity.
Qed.

Lemma split_slash_app p seg :
  split_slash (p ++ String "/" seg) = (split_slash p ++ split_slash seg)%list.
Proof.
  induction p as [|c p IH]; [reflexivity|].
  cbn [append split_slash]. rewrite IH.
  destruct (Ascii.eqb c "/"); [reflexivity|].
  destruct (split_slash_cons p) as (w & ws & ->). reflexivity.
Qed.

Lemma split_slash_segment seg : no_slash seg = true -> split_slash seg = [seg].
Proof.
  induction seg as [|c seg IH]; [reflexivity|].
  cbn [no_slash split_slash]. intros H. apply andb_prop in H as [Hc Hs].
  apply negb_true_iff in Hc. rewrite Hc, (IH Hs). reflexivity.
Qed.

Lemma parent_xpath_segment p seg :
  no_slash seg = true -> parent_xpath (p ++ "/" ++ seg) = p.
Proof.
  intros H. unfold parent_xpath.
  change (p ++ "/" ++ seg) with (p ++ String "/" seg).
  rewrite split_slash_app, (split_slash_segment _ H), removelast_last.
  apply join_split_slash.
Qed.

Lemma no_slash_app a b : no_slash (a ++ b) = no_slash a && no_slash b.
Proof.
  induction a as [|c a IH]; [reflexivity|].
  cbn [append no_slash]. rewrite IH. apply andb_assoc.
Qed.

Lemma no_slash_str_of_nat n : no_slash (str_of_nat n) = true.
Proof.
  unfold str_of_nat. generalize (Nat.to_uint n) as d.
  induction d; simpl; auto.
Qed.

(** X9: [parent_xpath] undoes the address computation: applied to the
    address of a child it gives the address of the parent, provided the
    child's tag holds no ["/"]. *)
Theorem parent_xpath_child_xpath (xpath : string) (tag_counts tag_order : counter)
        (ele : Element) :
  no_slash (str_of_tag (tag ele)) = true ->
  parent_xpath (child_xpath xpath tag_counts tag_order ele) = xpath.
Proof.
  intros H. unfold child_xpath.
  destruct (_ <? _)%nat; apply parent_xpath_segment; [|exact H].
  rewrite !no_slash_app, H, no_slash_str_of_nat. reflexivity.
Qed.

Lemma parent_xpath_child_xpath_witness :
  let p := Elem "p" [] (Some "B") None [] in
  no_slash (str_of_tag (tag p)) = true
  /\ child_xpath "/html/div" [(TagStr "p", 2)] [(TagStr "p", 1)] p
     = "/html/div/p[2]"
  /\ parent_xpath (child_xpath "/html/div" [(TagStr "p", 2)] [(TagStr "p", 1)] p)
     = "/html/div".
Proof.
  intros p. split; [reflexivity | split; [reflexivity|]].
  exact (parent_xpath_child_xpath "/html/div" [(TagStr "p", 2)]
           [(TagStr "p", 1)] p eq_refl).
Defined.

(** ** Inclusion pruner: further proofs *)

Lemma _pre_order_traversal_eq fuel func tree xpath :
  _pre_order_traversal (S fuel) func tree xpath
  = match pre_order_children (_pre_order_traversal fuel func) xpath
            (count_tags (getchildren (func tree xpath)))
            (getchildren (func tree xpath)) [] with
    | None => None
    | Some c' => Some (set_children c' (func tree xpath))
    end.
Proof.
  cbn [_pre_order_traversal]. cbv zeta.
  match goal with
  | |- match ?loop ?cs ?o with _ => _ end = _ =>
      assert (E : forall cs' o',
                 loop cs' o'
                 = pre_order_children (_pre_order_traversal fuel func) xpath
                     (count_tags (getchildren (func tree xpath))) cs' o')
  end.
  { induction cs' as [|e cs' IH]; intros o'; simpl; [reflexivity|].
    destruct (_pre_order_traversal fuel func e _); [|reflexivity].
    now rewrite IH. }
  now rewrite E.
Qed.

Lemma depth_children e :
  Forall (fun c => depth c < depth e) (getchildren e).
Proof.
  destruct e as [n a x l c | x l]; simpl; [|constructor].
  induction c as [|e c IH]; simpl; constructor; [lia|].
  eapply Forall_impl; [|exact IH]. simpl. intros; lia.
Qed.

Lemma set_children_getchildren e : set_children (getchildren e) e = e.
Proof. now destruct e. Qed.

Lemma tag_set_children cs e : tag (set_children cs e) = tag e.
Proof. now destruct e. Qed.

Lemma tag_blank e : tag (blank e) = tag e.
Proof. now destruct e. Qed.

Lemma blank_leaf e : getchildren (blank e) = [] /\ blank (blank e) = blank e.
Proof. now destruct e. Qed.

Section InclusionPruner.

Variable includes : list string.

Lemma prune_node_eq ele xpath :
  prune_node includes ele xpath = if blanks includes xpath then blank ele else ele.
Proof.
  unfold prune_node, prune_by_xpath, blanks, blank.
  destruct (negb (existsb (fun x => startswith x xpath) includes)
            && negb (existsb (fun x => startswith xpath x) includes));
    [|reflexivity].
  now destruct (existsb _ includes).
Qed.

Lemma tag_prune_node ele xpath : tag ((prune_node includes) ele xpath) = tag ele.
Proof.
  rewrite prune_node_eq. destruct (blanks includes xpath); [apply tag_blank | reflexivity].
Qed.

Lemma depth_prune_node ele xpath : depth ((prune_node includes) ele xpath) <= depth ele.
Proof.
  rewrite prune_node_eq. destruct (blanks includes xpath); [|lia].
  destruct ele; simpl; lia.
Qed.

Lemma walk_tag : forall fuel e xpath e',
  _pre_order_traversal fuel (prune_node includes) e xpath = Some e' -> tag e' = tag e.
Proof.
  intros [|fuel] e xpath e' H; [discriminate|].
  rewrite _pre_order_traversal_eq in H.
  destruct (pre_order_children _ _ _ _ _); inversion H.
  now rewrite tag_set_children, tag_prune_node.
Qed.

Lemma walk_children_tags fuel xpath tag_counts cs : forall tag_order cs',
  pre_order_children (_pre_order_traversal fuel (prune_node includes)) xpath tag_counts
    cs tag_order = Some cs' ->
  map tag cs' = map tag cs.
Proof.
  induction cs as [|e cs IH]; intros tag_order cs' H; simpl in H.
  - now inversion H.
  - destruct (_pre_order_traversal fuel (prune_node includes) e _) as [e'|] eqn:E;
      [|discriminate].
    destruct (pre_order_children _ _ _ cs _) as [rest|] eqn:R; [|discriminate].
    inversion H; subst. simpl.
    now rewrite (walk_tag _ _ _ _ E), (IH _ _ R).
Qed.

Lemma count_tags_by_tag cs cs' :
  map tag cs' = map tag cs -> count_tags cs' = count_tags cs.
Proof.
  unfold count_tags. generalize (@nil (Tag * nat)) as d. revert cs'.
  induction cs as [|e cs IH]; intros [|e' cs'] d H; simpl in *;
    try discriminate; [reflexivity|].
  inversion H as [[Ht Hm]]. rewrite Ht. now apply IH.
Qed.

Lemma child_xpath_by_tag xpath tag_counts tag_order e e' :
  tag e' = tag e ->
  child_xpath xpath tag_counts tag_order e'
  = child_xpath xpath tag_counts tag_order e.
Proof. unfold child_xpath. now intros ->. Qed.

Lemma getchildren_set_walked fuel xpath tag_counts e cs' :
  pre_order_children (_pre_order_traversal fuel (prune_node includes)) xpath tag_counts
    (getchildren e) [] = Some cs' ->
  getchildren (set_children cs' e) = cs'.
Proof.
  destruct e; simpl; [reflexivity|]. intros H. now inversion H.
Qed.

(** A second walk with the same include-set and the same base address
    changes nothing. *)
Lemma walk_idempotent : forall fuel e xpath e',
  _pre_order_traversal fuel (prune_node includes) e xpath = Some e' ->
  _pre_order_traversal fuel (prune_node includes) e' xpath = Some e'.
Proof.
  induction fuel as [|fuel IH]; intros e xpath e' H; [discriminate|].
  rewrite _pre_order_traversal_eq in H |- *.
  destruct (pre_order_children _ _ _ (getchildren ((prune_node includes) e xpath)) _)
    as [cs'|] eqn:Hcs; [|discriminate].
  inversion H; subst e'; clear H.
  assert (Hloop : forall tag_counts cs tag_order cs1,
             pre_order_children (_pre_order_traversal fuel (prune_node includes)) xpath
               tag_counts cs tag_order = Some cs1 ->
             pre_order_children (_pre_order_traversal fuel (prune_node includes)) xpath
               tag_counts cs1 tag_order = Some cs1).
  { intros tag_counts cs. induction cs as [|c cs IHcs];
      intros tag_order cs1 Hc; simpl in Hc.
    - now inversion Hc.
    - destruct (_pre_order_traversal fuel (prune_node includes) c _) as [c'|] eqn:E;
        [|discriminate].
      destruct (pre_order_children _ _ _ cs _) as [rest|] eqn:R; [|discriminate].
      inversion Hc; subst. simpl.
      pose proof (walk_tag _ _ _ _ E) as Ht.
      rewrite (child_xpath_by_tag _ _ _ _ _ Ht), (IH _ _ _ E), Ht.
      now rewrite (IHcs _ _ R). }
  rewrite prune_node_eq in Hcs |- *. rewrite prune_node_eq.
  destruct (blanks includes xpath).
  - destruct (blank_leaf e) as [Hnil Hbb]. rewrite Hnil in Hcs.
    inversion Hcs; subst cs'.
    replace (set_children [] (blank e)) with (blank e)
      by (now rewrite <- Hnil at 1; rewrite set_children_getchildren).
    rewrite Hbb, Hnil. simpl. f_equal.
    now rewrite <- Hnil at 1; rewrite set_children_getchildren.
  - rewrite (getchildren_set_walked _ _ _ _ _ Hcs).
    rewrite (count_tags_by_tag _ _ (walk_children_tags _ _ _ _ _ _ Hcs)).
    rewrite (Hloop _ _ _ _ Hcs). f_equal. now destruct e.
Qed.

(** With a recursion bound of at least the depth of the tree the walk
    returns, and the node it hands back has the tag it started with. *)
Lemma walk_returns : forall fuel e xpath,
  depth e <= fuel ->
  exists e', _pre_order_traversal fuel (prune_node includes) e xpath = Some e'
             /\ tag e' = tag e.
Proof.
  induction fuel as [|fuel IH]; intros e xpath Hd.
  { destruct e; simpl in Hd; lia. }
  assert (Hch : Forall (fun c => depth c <= fuel)
                       (getchildren ((prune_node includes) e xpath))).
  { pose proof (depth_prune_node e xpath).
    eapply Forall_impl; [|apply depth_children]. simpl. intros; lia. }
  assert (Hloop : forall tag_counts cs tag_order,
             Forall (fun c => depth c <= fuel) cs ->
             exists cs',
               pre_order_children (_pre_order_traversal fuel (prune_node includes)) xpath
                 tag_counts cs tag_order = Some cs').
  { intros tag_counts cs. induction cs as [|c cs IHcs]; intros tag_order Hall.
    - eexists; reflexivity.
    - inversion Hall; subst. simpl.
      destruct (IH c (child_xpath xpath tag_counts tag_order c))
        as (c' & -> & _); [assumption|].
      destruct (IHcs (dd_incr (tag c) tag_order)) as (rest & ->); [assumption|].
      eexists; reflexivity. }
  rewrite _pre_order_traversal_eq.
  destruct (Hloop (count_tags (getchildren ((prune_node includes) e xpath))) _ [] Hch)
    as (cs' & ->).
  eexists. split; [reflexivity|].
  now rewrite tag_set_children, tag_prune_node.
Qed.

End InclusionPruner.

(** X22: inclusion pruning is idempotent: run again with the same include-set
    and the same recursion bound on the tree it produced, it returns that
    tree unchanged. *)
Theorem extraction_based_pruning_idempotent (fuel : nat) (tree tree' : Tree)
        (includes : list string) :
  extraction_based_pruning fuel tree includes = Some (inr tree') ->
  extraction_based_pruning fuel tree' includes = Some (inr tree').
Proof.
  unfold extraction_based_pruning, pre_order_traversal.
  change (fun ele xpath => fst (prune_by_xpath ele xpath includes))
    with (prune_node includes).
  destruct tree as [e | [root|]]; intros H; try discriminate.
  - destruct (_pre_order_traversal fuel _ e _) as [e'|] eqn:E; inversion H; subst.
    rewrite (walk_tag _ _ _ _ _ E). now rewrite (walk_idempotent _ _ _ _ _ E).
  - destruct (_pre_order_traversal fuel _ root _) as [root'|] eqn:E;
      inversion H; subst.
    rewrite (walk_tag _ _ _ _ _ E). now rewrite (walk_idempotent _ _ _ _ _ E).
Qed.

Lemma extraction_based_pruning_idempotent_witness :
  let p t := Elem "p" [] (Some t) None [] in
  let tree := AsElement (Elem "html" [] None None
                              [Elem "div" [] None None [p "A"; p "B"]]) in
  let tree' := AsElement (Elem "html" [] None None
                               [Elem "div" [] None None [p "A"; p ""]]) in
  extraction_based_pruning 3 tree ["/html/div/p[1]"] = Some (inr tree')
  /\ extraction_based_pruning 3 tree' ["/html/div/p[1]"] = Some (inr tree').
Proof.
  intros p tree tree'. split; [reflexivity|].
  exact (extraction_based_pruning_idempotent 3 tree tree' ["/html/div/p[1]"]
           eq_refl).
Defined.

(** X23: with a recursion bound of at least the depth of the tree, inclusion
    pruning returns for every include-set, and the root it leaves has the
    tag it had. *)
Theorem extraction_based_pruning_returns (fuel : nat) (root : Element)
        (includes : list string) :
  depth root <= fuel ->
  exists root',
    extraction_based_pruning fuel (AsElement root) includes
    = Some (inr (AsElement root'))
    /\ tag root' = tag root.
Proof.
  intros Hd. unfold extraction_based_pruning, pre_order_traversal.
  change (fun ele xpath => fst (prune_by_xpath ele xpath includes))
    with (prune_node includes).
  destruct (walk_returns includes fuel root ("/" ++ str_of_tag (tag root)) Hd)
    as (root' & -> & Ht).
  exists root'. split; [reflexivity | exact Ht].
Qed.

Lemma extraction_based_pruning_returns_witness :
  let root := Elem "html" [] None None
                   [Elem "body" [] None None [Elem "p" [] (Some "A") None []]] in
  depth root <= 3
  /\ exists root',
      extraction_based_pruning 3 (AsElement root) ["/html/head"]
      = Some (inr (AsElement root'))
      /\ tag root' = tag root.
Proof.
  intros root.
  assert (H : depth root <= 3) by (vm_compute; constructor).
  split; [exact H|].
  exact (extraction_based_pruning_returns 3 root ["/html/head"] H).
Defined.

Lemma walk_nothing_included : forall fuel e xpath,
  depth e <= fuel ->
  _pre_order_traversal fuel (prune_node []) e xpath = Some e.
Proof.
  induction fuel as [|fuel IH]; intros e xpath Hd.
  { destruct e; simpl in Hd; lia. }
  rewrite _pre_order_traversal_eq.
  change (prune_node [] e xpath) with e.
  assert (Hloop : forall tag_counts cs tag_order,
             Forall (fun c => depth c <= fuel) cs ->
             pre_order_children (_pre_order_traversal fuel (prune_node [])) xpath
               tag_counts cs tag_order = Some cs).
  { intros tag_counts cs. induction cs as [|c cs IHcs]; intros tag_order Hall;
      [reflexivity|].
    inversion Hall; subst. simpl.
    rewrite IH by assumption. now rewrite IHcs. }
  rewrite Hloop.
  - now rewrite set_children_getchildren.
  - eapply Forall_impl; [|apply depth_children]. simpl. intros; lia.
Qed.

(** X24: with an empty include-set inclusion pruning leaves the tree as it
    is. *)
Theorem extraction_based_pruning_nothing_included (fuel : nat) (root : Element) :
  depth root <= fuel ->
  extraction_based_pruning fuel (AsElement root) [] = Some (inr (AsElement root))
  /\ extraction_based_pruning fuel (AsElementTree (Some root)) []
     = Some (inr (AsElementTree (Some root))).
Proof.
  intros Hd. unfold extraction_based_pruning, pre_order_traversal.
  change (fun ele xpath => fst (prune_by_xpath ele xpath []))
    with (prune_node []).
  now rewrite walk_nothing_included.
Qed.

Lemma extraction_based_pruning_nothing_included_witness :
  let root := Elem "html" [] None None
                   [Elem "body" [("class", "x")] None None
                         [Elem "p" [] (Some "A") (Some " ") []]] in
  depth root <= 3
  /\ extraction_based_pruning 3 (AsElement root) [] = Some (inr (AsElement root))
  /\ extraction_based_pruning 3 (AsElementTree (Some root)) []
     = Some (inr (AsElementTree (Some root))).
Proof.
  intros root.
  assert (H : depth root <= 3) by (vm_compute; constructor).
  split; [exact H|].
  exact (extraction_based_pruning_nothing_included 3 root H).
Defined.

(** ** Address-set reducer: further proofs *)

Lemma deduplicate_to_prune_eq xpaths :
  deduplicate_to_prune xpaths
  = map (fun i => nth i (sorted xpaths) "")
        (filter (fun i => negb (existsb (Nat.eqb i) (remove_indexes (sorted xpaths))))
                (seq 0 (List.length (sorted xpaths)))).
Proof. reflexivity. Qed.

Lemma In_insert_sorted y x l : In y (insert_sorted x l) <-> y = x \/ In y l.
Proof.
  induction l as [|z l IH]; simpl.
  - intuition.
  - destruct (String.leb x z); simpl; [intuition|].
    rewrite IH. intuition.
Qed.

Lemma In_sorted y l : In y (sorted l) <-> In y l.
Proof.
  induction l as [|x l IH]; simpl; [reflexivity|].
  rewrite In_insert_sorted, IH. intuition.
Qed.

Lemma in_remove_indexes xs j :
  In j (remove_indexes xs)
  <-> exists i, i < j /\ j < List.length xs
                /\ startswith (nth j xs "") (nth i xs "") = true.
Proof.
  unfold remove_indexes. rewrite in_flat_map. split.
  - intros (i & Hi & Hj). apply in_seq in Hi.
    apply filter_In in Hj as [Hj Hsw]. apply in_seq in Hj.
    exists i. repeat split; auto; lia.
  - intros (i & Hij & Hj & Hsw). exists i. split.
    + apply in_seq. lia.
    + apply filter_In. split; [apply in_seq; lia | exact Hsw].
Qed.

Lemma kept_index_spec xs i :
  negb (existsb (Nat.eqb i) (remove_indexes xs)) = true
  <-> ~ In i (remove_indexes xs).
Proof.
  rewrite negb_true_iff. split.
  - intros H Hin.
    assert (existsb (Nat.eqb i) (remove_indexes xs) = true); [|congruence].
    apply existsb_exists. exists i. split; [exact Hin | apply Nat.eqb_refl].
  - intros H. destruct (existsb _ _) eqn:E; [|reflexivity].
    apply existsb_exists in E as (k & Hk & Heq).
    apply Nat.eqb_eq in Heq. subst. contradiction.
Qed.

(** X18: every address [deduplicate_to_prune] returns is one of the
    addresses it was given. *)
Theorem deduplicate_to_prune_incl (xpaths : list string) :
  incl (deduplicate_to_prune xpaths) xpaths.
Proof.
  intros a Ha. rewrite deduplicate_to_prune_eq in Ha.
  apply in_map_iff in Ha as (i & <- & Hi).
  apply filter_In in Hi as [Hi _]. apply in_seq in Hi.
  apply In_sorted, nth_In. lia.
Qed.

(** X19: every address given to [deduplicate_to_prune] starts with one of
    the addresses it returns. *)
Theorem deduplicate_to_prune_prefix_kept (xpaths : list string) (a : string) :
  In a xpaths ->
  exists b, In b (deduplicate_to_prune xpaths) /\ startswith a b = true.
Proof.
  intros Ha. apply In_sorted in Ha.
  destruct (In_nth _ _ "" Ha) as (j & Hj & <-).
  rewrite deduplicate_to_prune_eq.
  set (xs := sorted xpaths) in *.
  assert (H : exists i, i <= j /\ ~ In i (remove_indexes xs)
                        /\ startswith (nth j xs "") (nth i xs "") = true).
  { clear Ha. induction j as [j IH] using lt_wf_ind.
    destruct (existsb (Nat.eqb j) (remove_indexes xs)) eqn:E.
    - apply existsb_exists in E as (k & Hk & Heq).
      apply Nat.eqb_eq in Heq. subst k.
      apply in_remove_indexes in Hk as (i' & Hi' & _ & Hsw).
      destruct (IH i' Hi') as (i & Hle & Hkeep & Hsw'); [lia|].
      exists i. repeat split; auto; [lia|].
      eapply startswith_trans; eassumption.
    - exists j. repeat split; auto; [|apply startswith_refl].
      apply kept_index_spec. now rewrite E. }
  destruct H as (i & Hle & Hkeep & Hsw).
  exists (nth i xs ""). split; [|exact Hsw].
  apply in_map_iff. exists i. split; [reflexivity|].
  apply filter_In. split; [apply in_seq; lia | now apply kept_index_spec].
Qed.

Lemma deduplicate_to_prune_prefix_kept_witness :
  In "/html/body/div/p" ["/html/body/div/p"; "/html/head"; "/html/body/div"]
  /\ exists b,
      In b (deduplicate_to_prune
              ["/html/body/div/p"; "/html/head"; "/html/body/div"])
      /\ startswith "/html/body/div/p" b = true.
Proof.
  assert (H : In "/html/body/div/p"
                 ["/html/body/div/p"; "/html/head"; "/html/body/div"])
    by (left; reflexivity).
  split; [exact H|].
  exact (deduplicate_to_prune_prefix_kept _ _ H).
Defined.

Lemma ascii_compare_refl c : Ascii.compare c c = Eq.
Proof. unfold Ascii.compare. apply N.compare_refl. Qed.

Lemma string_leb_refl s : String.leb s s = true.
Proof.
  unfold String.leb. induction s as [|c s IH]; simpl; [reflexivity|].
  now rewrite ascii_compare_refl.
Qed.

Lemma string_leb_trans a : forall b c,
  String.leb a b = true -> String.leb b c = true -> String.leb a c = true.
Proof.
  unfold String.leb.
  induction a as [|x a IH]; intros [|y b] [|z c]; simpl; try congruence.
  intros Hab Hbc.
  destruct (Ascii.compare x y) eqn:Exy; try discriminate;
    destruct (Ascii.compare y z) eqn:Eyz; try discriminate.
  - apply Ascii.compare_eq_iff in Exy, Eyz. subst.
    rewrite ascii_compare_refl. now apply (IH b c).
  - apply Ascii.compare_eq_iff in Exy. subst. now rewrite Eyz.
  - apply Ascii.compare_eq_iff in Eyz. subst. now rewrite Exy.
  - unfold Ascii.compare in *.
    rewrite N.compare_lt_iff in Exy, Eyz.
    assert (H : (N_of_ascii x ?= N_of_ascii z)%N = Lt)
      by (apply N.compare_lt_iff; lia).
    now rewrite H.
Qed.

(** A prefix is never greater than the string it starts. *)
Lemma startswith_leb b : forall a,
  startswith b a = true -> String.leb a b = true.
Proof.
  unfold String.leb.
  induction b as [|y b IH]; intros [|x a] H; simpl in *; try reflexivity;
    try discriminate.
  apply andb_prop in H as [Hxy H]. apply Ascii.eqb_eq in Hxy. subst.
  rewrite ascii_compare_refl. now apply IH.
Qed.

Lemma insert_sorted_sorted x l :
  StronglySorted string_le l -> StronglySorted string_le (insert_sorted x l).
Proof.
  induction 1 as [|y l Hl IH Hy]; simpl.
  - repeat constructor.
  - destruct (String.leb x y) eqn:E.
    + constructor; [now constructor|].
      constructor; [exact E|].
      eapply Forall_impl; [|exact Hy]. intros z Hz.
      eapply string_leb_trans; eassumption.
    + constructor; [exact IH|].
      apply Forall_forall. intros z Hz.
      apply In_insert_sorted in Hz as [->|Hz].
      * destruct (String.leb_total x y) as [H|H]; [congruence | exact H].
      * rewrite Forall_forall in Hy. now apply Hy.
Qed.

Lemma sorted_sorted l : StronglySorted string_le (sorted l).
Proof.
  induction l as [|x l IH]; simpl; [constructor|].
  now apply insert_sorted_sorted.
Qed.

Lemma sorted_fixed l : StronglySorted string_le l -> sorted l = l.
Proof.
  induction 1 as [|x l Hl IH Hx]; simpl; [reflexivity|].
  rewrite IH. destruct l as [|y l]; [reflexivity|]. simpl.
  inversion Hx as [|? ? Hxy _]; subst. unfold string_le in Hxy.
  now rewrite Hxy.
Qed.

Lemma StronglySorted_nth l : StronglySorted string_le l ->
  forall i j, i < j -> j < List.length l ->
              string_le (nth i l "") (nth j l "").
Proof.
  induction 1 as [|x l Hl IH Hx]; intros i j Hij Hj; simpl in Hj; [lia|].
  destruct j as [|j]; [lia|]. destruct i as [|i]; simpl.
  - rewrite Forall_forall in Hx. apply Hx, nth_In. lia.
  - apply IH; lia.
Qed.

Lemma ForallOrdPairs_nth {A} (R : A -> A -> Prop) d l :
  ForallOrdPairs R l ->
  forall i j, i < j -> j < List.length l -> R (nth i l d) (nth j l d).
Proof.
  induction 1 as [|x l Hx Hl IH]; intros i j Hij Hj; simpl in Hj; [lia|].
  destruct j as [|j]; [lia|]. destruct i as [|i]; simpl.
  - rewrite Forall_forall in Hx. apply Hx, nth_In. lia.
  - apply IH; lia.
Qed.

(** Relations between the members of a selection from [seq]. *)
Lemma selection_pairs {A} (R : A -> A -> Prop) (f : nat -> A)
      (keep : nat -> bool) n : forall a,
  (forall i j, a <= i -> i < j -> j < a + n -> keep j = true -> R (f i) (f j)) ->
  ForallOrdPairs R (map f (filter keep (seq a n))).
Proof.
  induction n as [|n IH]; intros a H; simpl; [constructor|].
  assert (Hrest : ForallOrdPairs R (map f (filter keep (seq (S a) n))))
    by (apply IH; intros; apply H; lia || assumption).
  destruct (keep a); [|exact Hrest].
  simpl. constructor; [|exact Hrest].
  apply Forall_forall. intros y Hy.
  apply in_map_iff in Hy as (j & <- & Hj).
  apply filter_In in Hj as [Hj Hk]. apply in_seq in Hj.
  apply H; lia || assumption.
Qed.

Lemma selection_sorted (f : nat -> string) (keep : nat -> bool) n : forall a,
  (forall i j, a <= i -> i < j -> j < a + n -> string_le (f i) (f j)) ->
  StronglySorted string_le (map f (filter keep (seq a n))).
Proof.
  induction n as [|n IH]; intros a H; simpl; [constructor|].
  assert (Hrest : StronglySorted string_le (map f (filter keep (seq (S a) n))))
    by (apply IH; intros; apply H; lia).
  destruct (keep a); [|exact Hrest].
  simpl. constructor; [exact Hrest|].
  apply Forall_forall. intros y Hy.
  apply in_map_iff in Hy as (j & <- & Hj).
  apply filter_In in Hj as [Hj _]. apply in_seq in Hj.
  apply H; lia.
Qed.

(** Among the sorted addresses, one that is kept is unrelated to every one
    before it. *)
Lemma kept_unrelated (xs : list string) :
  StronglySorted string_le xs ->
  forall i j, i < j -> j < List.length xs ->
              negb (existsb (Nat.eqb j) (remove_indexes xs)) = true ->
              unrelated (nth i xs "") (nth j xs "").
Proof.
  intros Hsorted i j Hij Hj Hkeep.
  apply kept_index_spec in Hkeep.
  assert (H1 : startswith (nth j xs "") (nth i xs "") = false).
  { destruct (startswith _ _) eqn:E; [|reflexivity].
    exfalso. apply Hkeep, in_remove_indexes. exists i. auto. }
  split; [exact H1|].
  destruct (startswith (nth i xs "") (nth j xs "")) eqn:E; [|reflexivity].
  apply startswith_leb in E.
  pose proof (StronglySorted_nth _ Hsorted i j Hij Hj) as Hle.
  rewrite (String.leb_antisym _ _ Hle E), startswith_refl in H1. discriminate.
Qed.

(** X20: among the addresses [deduplicate_to_prune] returns, none is a
    prefix of another one; in particular none occurs twice. *)
Theorem deduplicate_to_prune_prefix_free (xpaths : list string) :
  ForallOrdPairs unrelated (deduplicate_to_prune xpaths).
Proof.
  rewrite deduplicate_to_prune_eq.
  apply selection_pairs. intros i j _ Hij Hj Hkeep. simpl in Hj.
  apply kept_unrelated; auto using sorted_sorted.
Qed.

Lemma map_nth_seq (l : list string) :
  map (fun i => nth i l "") (seq 0 (List.length l)) = l.
Proof.
  induction l as [|x l IH]; [reflexivity|].
  simpl. f_equal. rewrite <- seq_shift, map_map. exact IH.
Qed.

(** X21: reducing a reduced address list changes nothing. *)
Theorem deduplicate_to_prune_idempotent (xpaths : list string) :
  deduplicate_to_prune (deduplicate_to_prune xpaths)
  = deduplicate_to_prune xpaths.
Proof.
  set (ys := deduplicate_to_prune xpaths).
  assert (Hs : StronglySorted string_le ys).
  { subst ys. rewrite deduplicate_to_prune_eq. apply selection_sorted.
    intros i j _ Hij Hj. apply StronglySorted_nth; auto using sorted_sorted. }
  assert (Hr : remove_indexes ys = []).
  { destruct (remove_indexes ys) as [|j r] eqn:E; [reflexivity|].
    assert (Hj : In j (remove_indexes ys)) by (rewrite E; now left).
    apply in_remove_indexes in Hj as (i & Hij & Hj & Hsw).
    assert (Hfree : ForallOrdPairs unrelated ys).
    { subst ys. rewrite deduplicate_to_prune_eq. apply selection_pairs.
      intros a b _ Hab Hb Hkeep. simpl in Hb.
      apply kept_unrelated; auto using sorted_sorted. }
    pose proof (ForallOrdPairs_nth unrelated "" _ Hfree i j Hij Hj) as [H _].
    congruence. }
  rewrite (deduplicate_to_prune_eq ys), (sorted_fixed _ Hs), Hr.
  simpl existsb. simpl negb.
  rewrite forallb_filter_id; [apply map_nth_seq|].
  apply forallb_forall. reflexivity.
Qed.

(** ** Control-character repair: further proofs *)


Local Open Scope N_scope.

Lemma int_digits_of_lu (d : Decimal.uint) : forall a : Decimal.uint,
  fold_left (fun n c => n * 10 + digit_value c)
            (of_string (NilEmpty.string_of_uint d))
            (DecimalPos.Unsigned.of_lu a)
  = DecimalPos.Unsigned.of_lu (Decimal.revapp d a).
Proof.
  induction d; intros a; cbn [NilEmpty.string_of_uint Decimal.revapp];
    [reflexivity | ..];
    rewrite <- IHd; unfold of_string; cbn [list_ascii_of_string map fold_left];
    f_equal; cbn [DecimalPos.Unsigned.of_lu];
    match goal with |- _ * 10 + ?v = _ => change v with (v + 0) end;
    vm_compute digit_value; lia.
Qed.

(** Reading back what [str] writes gives the number. *)
Lemma numeric_value_decimal n : numeric_value (decimal n) 10 = n.
Proof.
  unfold numeric_value, decimal.
  change 0 with (DecimalPos.Unsigned.of_lu Decimal.Nil).
  rewrite int_digits_of_lu.
  change (Decimal.revapp (N.to_uint n) Decimal.Nil) with (Decimal.rev (N.to_uint n)).
  rewrite <- DecimalPos.Unsigned.of_uint_alt.
  apply DecimalN.Unsigned.of_to.
Qed.

Lemma decimal_digits n : Forall (fun c => is_digit c = true) (decimal n).
Proof.
  unfold decimal. generalize (N.to_uint n) as d.
  induction d; simpl; constructor; auto.
Qed.

Lemma decimal_nonempty n : decimal n <> [].
Proof.
  intros E. pose proof (numeric_value_decimal n) as H. rewrite E in H.
  cbv in H. subst n. discriminate E.
Qed.

(** Doubling a number adds at most one decimal digit. *)
Lemma double_nb_digits d :
  (Decimal.nb_digits (Decimal.Little.double d) <= S (Decimal.nb_digits d))%nat
  /\ (Decimal.nb_digits (Decimal.Little.succ_double d)
      <= S (Decimal.nb_digits d))%nat.
Proof.
  induction d as [|d [IH1 IH2]|d [IH1 IH2]|d [IH1 IH2]|d [IH1 IH2]|d [IH1 IH2]
                  |d [IH1 IH2]|d [IH1 IH2]|d [IH1 IH2]|d [IH1 IH2]|d [IH1 IH2]];
    cbn [Decimal.Little.double Decimal.Little.succ_double Decimal.nb_digits];
    split; lia.
Qed.

Lemma to_little_uint_nb_digits p :
  (Decimal.nb_digits (Pos.to_little_uint p) <= Pos.size_nat p)%nat.
Proof.
  induction p as [p IH|p IH|]; cbn [Pos.to_little_uint Pos.size_nat].
  - pose proof (double_nb_digits (Pos.to_little_uint p)) as [_ H]. lia.
  - pose proof (double_nb_digits (Pos.to_little_uint p)) as [H _]. lia.
  - apply Nat.le_refl.
Qed.

Lemma string_of_uint_length d :
  List.length (of_string (NilEmpty.string_of_uint d)) = Decimal.nb_digits d.
Proof.
  unfold of_string. induction d; simpl; congruence.
Qed.

(** The decimal form of a code point is far below the limit of [int]. *)
Lemma decimal_length c :
  c <= 0x10FFFF -> (List.length (decimal c) <= int_max_str_digits)%nat.
Proof.
  intros Hc. unfold decimal. rewrite string_of_uint_length.
  destruct c as [|p]; [cbn; unfold int_max_str_digits; lia|].
  cbn [N.to_uint]. unfold Pos.to_uint. rewrite DecimalFacts.nb_digits_rev.
  etransitivity; [apply to_little_uint_nb_digits|].
  assert (Hlt : (p < 0x110000)%positive) by lia.
  apply Pos.size_nat_monotone in Hlt.
  change (Pos.size_nat 0x110000) with 21%nat in Hlt.
  unfold int_max_str_digits. lia.
Qed.

Lemma span_all p s : forallb p s = true -> span p s = (s, []).
Proof.
  induction s as [|c s IH]; [reflexivity|].
  cbn [forallb span]. intros H. apply andb_prop in H as [Hc Hs].
  now rewrite Hc, (IH Hs).
Qed.

Lemma digit_valid c : is_digit c = true -> valid_digit 10 c = true.
Proof.
  intros H. unfold valid_digit, digit_value. rewrite H. cbn [orb andb].
  unfold is_digit in H. apply andb_prop in H as [H1 H2].
  apply N.leb_le in H1, H2. apply N.ltb_lt. lia.
Qed.

Lemma hexdigit_valid c : is_hexdigit c = true -> valid_digit 16 c = true.
Proof.
  unfold is_hexdigit, valid_digit, digit_value, is_digit. intros H.
  repeat match goal with
         | |- context [?a <=? ?b] => destruct (N.leb_spec a b)
         | H : context [?a <=? ?b] |- _ => destruct (N.leb_spec a b)
         end; cbn [andb orb] in *; try discriminate H; try lia;
    apply N.ltb_lt; lia.
Qed.

(** [int] on a run of decimal digits: the number it writes, unless the run
    is longer than the limit. *)
Lemma int_decimal_run s :
  s <> [] -> Forall (fun c => is_digit c = true) s ->
  int s 10
  = if (int_max_str_digits <? List.length s)%nat
    then inl (ValueError "Exceeds the limit (4300 digits) for integer string conversion")
    else inr (numeric_value s 10).
Proof.
  intros Hne Hs.
  assert (Hv : forallb (valid_digit 10) s = true).
  { apply forallb_forall. rewrite Forall_forall in Hs.
    intros c Hc. now apply digit_valid, Hs. }
  unfold int.
  change (negb ((2 <=? 10) && (10 <=? 36))) with false.
  change (negb (N.land 10 (10 - 1) =? 0)) with true.
  cbv iota. rewrite (span_all _ _ Hv). cbn [fst andb].
  destruct (int_max_str_digits <? List.length s)%nat; [reflexivity|].
  destruct s; [contradiction|]. now rewrite Hv.
Qed.

(** [int] on a run of hexadecimal digits: the number it writes, whatever
    the length of the run. *)
Lemma int_hex_run s :
  s <> [] -> Forall (fun c => is_hexdigit c = true) s ->
  int s 16 = inr (numeric_value s 16).
Proof.
  intros Hne Hs.
  assert (Hv : forallb (valid_digit 16) s = true).
  { apply forallb_forall. rewrite Forall_forall in Hs.
    intros c Hc. now apply hexdigit_valid, Hs. }
  unfold int.
  change (negb ((2 <=? 16) && (16 <=? 36))) with false.
  change (negb (N.land 16 (16 - 1) =? 0)) with false.
  cbv iota. cbn [andb].
  destruct s; [contradiction|]. now rewrite Hv.
Qed.

(** [int] reads back what [str] writes for a code point. *)
Lemma int_decimal c : c <= 0x10FFFF -> int (decimal c) 10 = inr c.
Proof.
  intros Hc.
  rewrite (int_decimal_run _ (decimal_nonempty c) (decimal_digits c)).
  apply decimal_length, Nat.ltb_ge in Hc. rewrite Hc.
  now rewrite numeric_value_decimal.
Qed.

Lemma illegal_test_agrees (n : N) :
  (existsb (N.eqb n) [0xB; 0xC; 0xFFFE; 0xFFFF])
  || ((0x0 <=? n) && (n <=? 0x8))
  || ((0xE <=? n) && (n <=? 0x1F))
  || ((0xD800 <=? n) && (n <=? 0xDFFF))
  = ILLEGAL_XML_CHARS_RE n.
Proof.
  unfold ILLEGAL_XML_CHARS_RE. cbn [existsb].
  replace (n =? 0x0b) with (n =? 0xB) by reflexivity.
  replace (n =? 0x0c) with (n =? 0xC) by reflexivity.
  destruct (n =? 0xB), (n =? 0xC), (n =? 0xFFFE), (n =? 0xFFFF),
    ((0x0 <=? n) && (n <=? 0x8)), ((0xE <=? n) && (n <=? 0x1F)),
    ((0xD800 <=? n) && (n <=? 0xDFFF)); reflexivity.
Qed.

Lemma illegal_bound c : ILLEGAL_XML_CHARS_RE c = true -> c <= 0xFFFF.
Proof.
  unfold ILLEGAL_XML_CHARS_RE. intros H.
  repeat match goal with
         | H : (_ || _) = true |- _ => apply orb_prop in H as [H|H]
         | H : (_ && _) = true |- _ => apply andb_prop in H as [_ H]
         | H : (_ <=? _) = true |- _ => apply N.leb_le in H
         | H : (_ =? _) = true |- _ => apply N.eqb_eq in H
         end; lia.
Qed.

Lemma strip_by_class s default base n :
  int s base = inr n ->
  strip_illegal_xml_characters s default base
  = inr (if ILLEGAL_XML_CHARS_RE n then [] else default).
Proof.
  intros E. unfold strip_illegal_xml_characters. rewrite E.
  rewrite illegal_test_agrees. now destruct (ILLEGAL_XML_CHARS_RE n).
Qed.

(** What [strip_illegal_xml_characters] does with a run of decimal
    digits. *)
Lemma strip_decimal_run (s default : pystr) :
  s <> [] -> Forall (fun c => is_digit c = true) s ->
  strip_illegal_xml_characters s default 10
  = if (int_max_str_digits <? List.length s)%nat
    then inl (ValueError "Exceeds the limit (4300 digits) for integer string conversion")
    else inr (if ILLEGAL_XML_CHARS_RE (numeric_value s 10) then []
              else default).
Proof.
  intros Hne Hs. pose proof (int_decimal_run s Hne Hs) as E.
  destruct (int_max_str_digits <? List.length s)%nat.
  - unfold strip_illegal_xml_characters. now rewrite E.
  - now apply strip_by_class.
Qed.

(** What it does with a run of hexadecimal digits. *)
Lemma strip_hex_run (s default : pystr) :
  s <> [] -> Forall (fun c => is_hexdigit c = true) s ->
  strip_illegal_xml_characters s default 16
  = inr (if ILLEGAL_XML_CHARS_RE (numeric_value s 16) then [] else default).
Proof.
  intros Hne Hs. now apply strip_by_class, int_hex_run.
Qed.

(** X2: what [strip_illegal_xml_characters] does with the digits the two
    patterns capture.  A run of decimal digits longer than the limit of
    [int] makes it raise [ValueError]; any other run is deleted exactly when
    the number it writes is in the character class of
    [ILLEGAL_XML_CHARS_RE], so a reference is deleted exactly when the
    literal would be. *)
Theorem strip_illegal_xml_characters_class (s default : pystr) :
  s <> [] ->
  (Forall (fun c => is_digit c = true) s ->
   strip_illegal_xml_characters s default 10
   = if (int_max_str_digits <? List.length s)%nat
     then inl (ValueError "Exceeds the limit (4300 digits) for integer string conversion")
     else inr (if ILLEGAL_XML_CHARS_RE (numeric_value s 10) then []
               else default))
  /\ (Forall (fun c => is_hexdigit c = true) s ->
      strip_illegal_xml_characters s default 16
      = inr (if ILLEGAL_XML_CHARS_RE (numeric_value s 16) then []
             else default)).
Proof.
  intros Hne. split; intros Hs.
  - now apply strip_decimal_run.
  - now apply strip_hex_run.
Qed.

Lemma strip_illegal_xml_characters_class_witness :
  let s := of_string "65535" in
  let t := of_string "d800" in
  s <> [] /\ t <> []
  /\ Forall (fun c => is_digit c = true) s
  /\ Forall (fun c => is_hexdigit c = true) t
  /\ strip_illegal_xml_characters s (of_string "&#65535;") 10 = inr []
  /\ strip_illegal_xml_characters t (of_string "&#xd800;") 16 = inr [].
Proof.
  intros s t.
  assert (Hs : s <> []) by discriminate.
  assert (Ht : t <> []) by discriminate.
  assert (Ds : Forall (fun c => is_digit c = true) s) by (repeat constructor).
  assert (Dt : Forall (fun c => is_hexdigit c = true) t) by (repeat constructor).
  split; [exact Hs | split; [exact Ht | split; [exact Ds | split; [exact Dt|]]]].
  split.
  - exact (proj1 (strip_illegal_xml_characters_class s (of_string "&#65535;") Hs) Ds).
  - exact (proj2 (strip_illegal_xml_characters_class t (of_string "&#xd800;") Ht) Dt).
Defined.

Lemma re_sub_skip pattern repl s : forall k,
  re_sub pattern repl k s = re_sub pattern repl 0 (skipn k s).
Proof.
  induction s as [|c s IH]; intros [|k]; try reflexivity.
  simpl. apply IH.
Qed.

(** What a substitution writes is made of code points it read, when every
    replacement is the match itself or nothing. *)
Lemma re_sub_Forall (P : N -> Prop) pattern repl :
  (forall g1 g0 r, repl g1 g0 = inr r -> r = [] \/ r = g0) ->
  forall s k out,
    Forall P s -> re_sub pattern repl k s = inr out -> Forall P out.
Proof.
  intros Hrepl. induction s as [|c s IH]; intros k out Hs E.
  - destruct k; injection E as <-; constructor.
  - inversion Hs as [|? ? Hc Hs']; subst.
    destruct k as [|k]; cbn [re_sub] in E; [|now apply (IH k)].
    destruct (pattern (c :: s)) as [[g1 len]|].
    + destruct (repl g1 (firstn len (c :: s))) as [e|r] eqn:Er; [discriminate|].
      destruct (re_sub pattern repl (len - 1) s) as [e|o] eqn:Eo; [discriminate|].
      injection E as <-. apply Forall_app. split; [|now apply (IH (len - 1)%nat)].
      destruct (Hrepl _ _ _ Er) as [-> | ->]; [constructor|].
      rewrite <- (firstn_skipn len (c :: s)) in Hs.
      now apply Forall_app in Hs.
    + destruct (re_sub pattern repl 0 s) as [e|o] eqn:Eo; [discriminate|].
      injection E as <-. constructor; [exact Hc | now apply (IH 0%nat)].
Qed.

Lemma strip_keeps_or_drops s default base r :
  strip_illegal_xml_characters s default base = inr r ->
  r = [] \/ r = default.
Proof.
  unfold strip_illegal_xml_characters.
  destruct (int s base) as [e|n]; [discriminate|].
  rewrite illegal_test_agrees.
  destruct (ILLEGAL_XML_CHARS_RE n); intros E; injection E as <-; auto.
Qed.

Lemma digit_is_ascii c : is_digit c = true -> c < 128.
Proof.
  unfold is_digit. intros H. apply andb_prop in H as [_ H].
  apply N.leb_le in H. lia.
Qed.

Lemma xmlcharrefreplace_ascii html :
  Forall (fun c => c < 128) (xmlcharrefreplace html).
Proof.
  unfold xmlcharrefreplace.
  induction html as [|c html IH]; simpl; [constructor|].
  apply Forall_app. split; [|exact IH].
  destruct (N.ltb_spec c 128); [now repeat constructor|].
  change (of_string "&#") with [38; 35]. change (of_string ";") with [59].
  repeat (constructor; [lia|]).
  apply Forall_app. split; [|repeat constructor].
  eapply Forall_impl; [|apply decimal_digits]. apply digit_is_ascii.
Qed.

(** X3: the string [remove_control_characters] returns, whenever it
    returns, is ASCII: every code point of it is below 128. *)
Theorem remove_control_characters_ascii (html out : pystr) :
  remove_control_characters html = inr out ->
  Forall (fun c => c < 128) out.
Proof.
  unfold remove_control_characters.
  destruct (re_sub match_decimal_ref _ 0 _) as [e|html1] eqn:E1; [discriminate|].
  destruct (re_sub match_hex_ref _ 0 _) as [e|html2] eqn:E2; [discriminate|].
  intros E. injection E as <-.
  apply Forall_forall. intros c Hc. apply filter_In in Hc as [Hc _].
  revert c Hc. apply Forall_forall.
  eapply re_sub_Forall; [| |exact E2];
    [intros g1 g0 r; apply strip_keeps_or_drops|].
  eapply re_sub_Forall; [| |exact E1];
    [intros g1 g0 r; apply strip_keeps_or_drops|].
  apply xmlcharrefreplace_ascii.
Qed.

Lemma remove_control_characters_ascii_witness :
  remove_control_characters [233; 1; 98] = inr (of_string "&#233;b")
  /\ Forall (fun c => c < 128) (of_string "&#233;b").
Proof.
  split; [reflexivity|].
  exact (remove_control_characters_ascii [233; 1; 98] (of_string "&#233;b")
           eq_refl).
Defined.

Lemma xmlcharrefreplace_id html :
  Forall (fun c => c < 128) html -> xmlcharrefreplace html = html.
Proof.
  unfold xmlcharrefreplace. induction 1 as [|c html Hc _ IH]; [reflexivity|].
  cbn [flat_map]. apply N.ltb_lt in Hc. now rewrite Hc, IH.
Qed.

Lemma no_opening_no_prefix s :
  ref_opening_free s = true -> strip_prefix (of_string "&#") s = None.
Proof.
  change (of_string "&#") with [38; 35].
  destruct s as [|c [|d s]]; cbn [ref_opening_free strip_prefix]; intros H.
  - reflexivity.
  - destruct (38 =? c); reflexivity.
  - rewrite (N.eqb_sym 38 c), (N.eqb_sym 35 d).
    destruct (c =? 38), (d =? 35); try reflexivity; discriminate H.
Qed.

Lemma no_prefix_no_match s :
  strip_prefix (of_string "&#") s = None ->
  match_decimal_ref s = None /\ match_hex_ref s = None.
Proof.
  unfold match_decimal_ref, match_hex_ref. now intros ->.
Qed.

Lemma ref_opening_free_tail c s :
  ref_opening_free (c :: s) = true -> ref_opening_free s = true.
Proof. simpl. intros H. now apply andb_prop in H. Qed.

Lemma re_sub_no_opening pattern repl s :
  (forall t, strip_prefix (of_string "&#") t = None -> pattern t = None) ->
  ref_opening_free s = true ->
  re_sub pattern repl 0 s = inr s.
Proof.
  intros Hp. induction s as [|c s IH]; intros H; [reflexivity|].
  cbn [re_sub]. rewrite (Hp _ (no_opening_no_prefix _ H)).
  now rewrite IH by (eapply ref_opening_free_tail, H).
Qed.

(** X4: a string of ASCII code points that holds no invalid code point and
    no reference opening ["&#"] is returned unchanged. *)
Theorem remove_control_characters_unchanged (html : pystr) :
  Forall (fun c => (c < 128)%N) html ->
  Forall (fun c => ILLEGAL_XML_CHARS_RE c = false) html ->
  ref_opening_free html = true ->
  remove_control_characters html = inr html.
Proof.
  intros Hascii Hlegal Hfree. unfold remove_control_characters.
  rewrite (xmlcharrefreplace_id _ Hascii).
  rewrite (re_sub_no_opening match_decimal_ref _ html);
    [|intros t Ht; now apply no_prefix_no_match in Ht | exact Hfree].
  rewrite (re_sub_no_opening match_hex_ref _ html);
    [|intros t Ht; now apply no_prefix_no_match in Ht | exact Hfree].
  apply f_equal. apply forallb_filter_id, forallb_forall. intros c Hc.
  rewrite Forall_forall in Hlegal. now rewrite (Hlegal c Hc).
Qed.

Lemma remove_control_characters_unchanged_witness :
  let html := of_string "<p class=x>Tom &amp; Jerry</p>" in
  Forall (fun c => (c < 128)%N) html
  /\ Forall (fun c => ILLEGAL_XML_CHARS_RE c = false) html
  /\ ref_opening_free html = true
  /\ remove_control_characters html = inr html.
Proof.
  intros html.
  assert (H1 : Forall (fun c => (c < 128)%N) html)
    by (repeat constructor).
  assert (H2 : Forall (fun c => ILLEGAL_XML_CHARS_RE c = false) html)
    by (repeat constructor).
  assert (H3 : ref_opening_free html = true) by reflexivity.
  split; [exact H1 | split; [exact H2 | split; [exact H3|]]].
  exact (remove_control_characters_unchanged html H1 H2 H3).
Defined.

Lemma span_digits_semicolon D :
  Forall (fun c => is_digit c = true) D ->
  span is_digit (D ++ [59])%list = (D, [59]).
Proof.
  induction 1 as [|c D Hc _ IH]; [reflexivity|].
  cbn [app span]. now rewrite Hc, IH.
Qed.

Lemma match_decimal_whole D :
  Forall (fun c => is_digit c = true) D -> D <> [] ->
  match_decimal_ref (38 :: 35 :: (D ++ [59])%list)
  = Some (D, (2 + S (List.length D))%nat).
Proof.
  intros HD Hne. unfold match_decimal_ref.
  change (strip_prefix (of_string "&#") (38 :: 35 :: (D ++ [59])%list))
    with (Some (D ++ [59])%list).
  cbv beta iota. unfold match_digits.
  rewrite (span_digits_semicolon _ HD).
  destruct D; [contradiction | reflexivity].
Qed.

Lemma no_ampersand_free t :
  Forall (fun c => c <> 38) t -> ref_opening_free t = true.
Proof.
  induction 1 as [|c t Hc _ IH]; [reflexivity|].
  cbn [ref_opening_free]. rewrite IH.
  apply N.eqb_neq in Hc. now rewrite Hc.
Qed.

Lemma digit_facts c :
  is_digit c = true ->
  c <> 38 /\ ILLEGAL_XML_CHARS_RE c = false
  /\ (c =? 120) || (c =? 88) = false.
Proof.
  unfold is_digit, ILLEGAL_XML_CHARS_RE. intros H.
  apply andb_prop in H as [H1 H2]. apply N.leb_le in H1, H2.
  repeat split; [lia| |];
    repeat match goal with
           | |- context [?a =? ?b] =>
               destruct (N.eqb_spec a b); [lia|]
           | |- context [?a <=? ?b] =>
               destruct (N.leb_spec a b)
           end; simpl; try reflexivity; lia.
Qed.

Lemma re_sub_match pattern repl c s group1 len replacement out :
  pattern (c :: s) = Some (group1, len) ->
  repl group1 (firstn len (c :: s)) = inr replacement ->
  re_sub pattern repl (len - 1) s = inr out ->
  re_sub pattern repl 0 (c :: s) = inr (replacement ++ out)%list.
Proof. intros H Hr Ho. cbn [re_sub]. now rewrite H, Hr, Ho. Qed.

Lemma re_sub_no_match pattern repl c s out :
  pattern (c :: s) = None ->
  re_sub pattern repl 0 s = inr out ->
  re_sub pattern repl 0 (c :: s) = inr (c :: out).
Proof. intros H Ho. cbn [re_sub]. now rewrite H, Ho. Qed.

(** The three substitutions on the reference [xmlcharrefreplace] writes for
    one code point. *)
Lemma reference_passes c :
  c <= 0x10FFFF ->
  let s := (38 :: 35 :: (decimal c ++ [59])%list) in
  re_sub match_decimal_ref
    (fun group1 group0 => strip_illegal_xml_characters group1 group0 10) 0 s
  = inr (if ILLEGAL_XML_CHARS_RE c then [] else s)
  /\ re_sub match_hex_ref
       (fun group1 group0 => strip_illegal_xml_characters group1 group0 16) 0 s
     = inr s
  /\ filter (fun c => negb (ILLEGAL_XML_CHARS_RE c)) s = s.
Proof.
  intros Hle s. pose proof (decimal_digits c) as HD.
  pose proof (decimal_nonempty c) as Hne.
  assert (Htail : Forall (fun x => x <> 38) (35 :: (decimal c ++ [59])%list)).
  { constructor; [lia|]. apply Forall_app. split; [|repeat constructor; lia].
    eapply Forall_impl; [|exact HD]. intros x Hx. now apply digit_facts in Hx. }
  split; [|split].
  - subst s.
    rewrite (re_sub_match _ _ _ _ _ _
               (if ILLEGAL_XML_CHARS_RE c then []
                else 38 :: 35 :: (decimal c ++ [59])%list) []
               (match_decimal_whole _ HD Hne)).
    + now rewrite app_nil_r.
    + replace (firstn (2 + S (List.length (decimal c)))
                      (38 :: 35 :: (decimal c ++ [59])%list))
        with (38 :: 35 :: (decimal c ++ [59])%list).
      2:{ symmetry. apply firstn_all2. simpl. rewrite length_app. simpl. lia. }
      apply strip_by_class, int_decimal, Hle.
    + rewrite re_sub_skip.
      replace (skipn (2 + S (List.length (decimal c)) - 1)
                     (35 :: (decimal c ++ [59])%list)) with (@nil N);
        [reflexivity|].
      symmetry. apply skipn_all2. simpl. rewrite length_app. simpl. lia.
  - subst s.
    assert (E : match_hex_ref (38 :: 35 :: (decimal c ++ [59])%list) = None).
    { unfold match_hex_ref.
      change (strip_prefix (of_string "&#") (38 :: 35 :: (decimal c ++ [59])%list))
        with (Some (decimal c ++ [59])%list).
      destruct (decimal c) as [|d D]; [contradiction|].
      inversion HD as [|? ? Hd _]; subst. cbn [app].
      apply digit_facts in Hd as (_ & _ & ->). reflexivity. }
    apply (re_sub_no_match _ _ _ _ _ E).
    apply re_sub_no_opening; [|now apply no_ampersand_free].
    intros t Ht. now apply no_prefix_no_match in Ht.
  - apply forallb_filter_id, forallb_forall. intros x Hx.
    destruct Hx as [<-|[<-|Hx]]; [reflexivity | reflexivity|].
    apply in_app_or in Hx as [Hx|[<-|[]]]; [|reflexivity].
    rewrite Forall_forall in HD. apply HD, digit_facts in Hx as (_ & -> & _).
    reflexivity.
Qed.

(** X5: a lone invalid code point is removed, whether it is a control
    character, deleted as a literal, or a surrogate or non-character above
    the ASCII range, written as a reference first and deleted as such. *)
Theorem remove_control_characters_drops_invalid (c : N) :
  ILLEGAL_XML_CHARS_RE c = true -> remove_control_characters [c] = inr [].
Proof.
  intros Hc. unfold remove_control_characters, xmlcharrefreplace.
  cbn [flat_map]. rewrite app_nil_r.
  destruct (c <? 128) eqn:E.
  - assert (Hfree : ref_opening_free [c] = true)
      by (cbn; now rewrite andb_false_r).
    rewrite (re_sub_no_opening match_decimal_ref _ [c]);
      [|intros t Ht; now apply no_prefix_no_match in Ht | exact Hfree].
    rewrite (re_sub_no_opening match_hex_ref _ [c]);
      [|intros t Ht; now apply no_prefix_no_match in Ht | exact Hfree].
    cbn [filter]. now rewrite Hc.
  - change (of_string "&#" ++ decimal c ++ of_string ";")%list
      with (38 :: 35 :: (decimal c ++ [59])%list).
    assert (Hle : c <= 0x10FFFF) by (apply illegal_bound in Hc; lia).
    destruct (reference_passes c Hle) as (-> & _ & _). rewrite Hc. reflexivity.
Qed.

Lemma remove_control_characters_drops_invalid_witness :
  ILLEGAL_XML_CHARS_RE 0xFFFE = true
  /\ remove_control_characters [0xFFFE] = inr [].
Proof.
  split; [reflexivity|].
  exact (remove_control_characters_drops_invalid 0xFFFE eq_refl).
Defined.

(** X6: a lone valid code point above the ASCII range (and up to 0x10FFFF,
    the last code point there is) comes back as its decimal character
    reference, not as the character. *)
Theorem remove_control_characters_writes_reference (c : N) :
  128 <= c -> c <= 0x10FFFF -> ILLEGAL_XML_CHARS_RE c = false ->
  remove_control_characters [c]
  = inr (of_string "&#" ++ decimal c ++ of_string ";")%list.
Proof.
  intros Hge Hle Hc. unfold remove_control_characters, xmlcharrefreplace.
  cbn [flat_map]. rewrite app_nil_r.
  apply N.ltb_ge in Hge. rewrite Hge.
  change (of_string "&#" ++ decimal c ++ of_string ";")%list
    with (38 :: 35 :: (decimal c ++ [59])%list).
  destruct (reference_passes c Hle) as (H1 & H2 & H3).
  rewrite Hc in H1. now rewrite H1, H2, H3.
Qed.

Lemma remove_control_characters_writes_reference_witness :
  128 <= 128150 /\ 128150 <= 0x10FFFF
  /\ ILLEGAL_XML_CHARS_RE 128150 = false
  /\ remove_control_characters [128150] = inr (of_string "&#128150;").
Proof.
  assert (H1 : 128 <= 128150) by discriminate.
  assert (H2 : 128150 <= 0x10FFFF) by discriminate.
  split; [exact H1 | split; [exact H2 | split; [reflexivity|]]].
  exact (remove_control_characters_writes_reference 128150 H1 H2 eq_refl).
Defined.

Lemma span_inv p s a b :
  span p s = (a, b) -> s = (a ++ b)%list /\ Forall (fun c => p c = true) a.
Proof.
  revert a b. induction s as [|c s IH]; intros a b H; cbn [span] in H.
  - injection H as <- <-. split; [reflexivity | constructor].
  - destruct (p c) eqn:Ec.
    + destruct (span p s) as [a' b'] eqn:Es. injection H as <- <-.
      destruct (IH a' b' eq_refl) as [-> Ha].
      split; [reflexivity | now constructor].
    + injection H as <- <-. split; [reflexivity | constructor].
Qed.

(** What a match of [match_digits] is made of. *)
Lemma match_digits_inv p s digits len :
  match_digits p s = Some (digits, len) ->
  digits <> [] /\ Forall (fun c => p c = true) digits
  /\ exists rest, s = (digits ++ rest)%list
       /\ (len = List.length digits
           \/ (len = S (List.length digits) /\ exists rest', rest = 59 :: rest')).
Proof.
  unfold match_digits. destruct (span p s) as [a b] eqn:Es.
  apply span_inv in Es as [-> Ha].
  destruct a as [|d a]; [discriminate|].
  destruct b as [|c b].
  - intros H. injection H as <- <-.
    split; [discriminate | split; [exact Ha|]]. exists []. auto.
  - destruct (N.eqb_spec c 59) as [->|_]; intros H; injection H as <- <-;
      (split; [discriminate | split; [exact Ha|]]); eexists; split;
      try reflexivity; [right | left]; eauto.
Qed.

Lemma strip_prefix_ref_inv s s1 :
  strip_prefix (of_string "&#") s = Some s1 -> s = 38 :: 35 :: s1.
Proof.
  change (of_string "&#") with [38; 35].
  destruct s as [|c [|d s]]; cbn [strip_prefix]; try discriminate.
  - destruct (38 =? c); discriminate.
  - destruct (N.eqb_spec 38 c) as [<-|]; [|discriminate].
    destruct (N.eqb_spec 35 d) as [<-|]; [|discriminate].
    now intros [= <-].
Qed.

(** A match of the decimal pattern holds one ampersand, the one it starts
    with; its group is a run of digits. *)
Lemma match_decimal_ref_inv c s digits len :
  match_decimal_ref (c :: s) = Some (digits, len) ->
  digits <> [] /\ Forall (fun c => is_digit c = true) digits
  /\ Forall (fun c => c <> 38) (firstn (len - 1) s).
Proof.
  unfold match_decimal_ref.
  destruct (strip_prefix (of_string "&#") (c :: s)) as [s1|] eqn:Ep;
    [|discriminate].
  apply strip_prefix_ref_inv in Ep. injection Ep as -> ->.
  destruct (match_digits is_digit s1) as [[digits' n]|] eqn:Em; [|discriminate].
  intros H. injection H as <- <-.
  apply match_digits_inv in Em as (Hne & Hd & rest & -> & Hlen).
  split; [exact Hne | split; [exact Hd|]].
  assert (Hamp : Forall (fun c => c <> 38) digits').
  { eapply Forall_impl; [|exact Hd]. intros x Hx. now apply digit_facts in Hx. }
  destruct Hlen as [-> | [-> [rest' ->]]].
  - cbn [Nat.add Nat.sub].
    rewrite firstn_cons. constructor; [lia|].
    rewrite firstn_app, firstn_all, Nat.sub_diag, firstn_O.
    now rewrite app_nil_r.
  - cbn [Nat.add Nat.sub].
    rewrite firstn_cons. constructor; [lia|].
    rewrite firstn_app.
    replace (S (List.length digits') - List.length digits')%nat with 1%nat by lia.
    rewrite firstn_all2 by lia. rewrite firstn_cons, firstn_O.
    apply Forall_app. split; [exact Hamp | repeat constructor; lia].
Qed.

Lemma match_hex_ref_inv s digits len :
  match_hex_ref s = Some (digits, len) ->
  digits <> [] /\ Forall (fun c => is_hexdigit c = true) digits.
Proof.
  unfold match_hex_ref.
  destruct (strip_prefix (of_string "&#") s) as [[|c s1]|]; try discriminate.
  destruct ((c =? 120) || (c =? 88)); [|discriminate].
  destruct (match_digits is_hexdigit s1) as [[digits' n]|] eqn:Em; [|discriminate].
  intros H. injection H as <- <-.
  apply match_digits_inv in Em as (Hne & Hd & _). auto.
Qed.

Lemma no_ampersand_no_long_ref c s :
  c <> 38 -> has_long_ref (c :: s) = has_long_ref s.
Proof.
  intros Hc. cbn [has_long_ref]. unfold long_ref_here, match_decimal_ref.
  change (of_string "&#") with [38; 35]. cbn [strip_prefix].
  destruct (N.eqb_spec 38 c) as [E|_]; [congruence | reflexivity].
Qed.

(** The decimal substitution raises exactly on a reference that is too
    long. *)
Lemma decimal_pass s : forall k,
  Forall (fun c => c <> 38) (firstn k s) ->
  if has_long_ref s then
    re_sub match_decimal_ref
      (fun group1 group0 => strip_illegal_xml_characters group1 group0 10) k s
    = inl (ValueError "Exceeds the limit (4300 digits) for integer string conversion")
  else
    exists out,
      re_sub match_decimal_ref
        (fun group1 group0 => strip_illegal_xml_characters group1 group0 10) k s
      = inr out.
Proof.
  induction s as [|c s IH]; intros k Hk.
  - destruct k; cbn; eauto.
  - destruct k as [|k].
    + clear Hk. cbn [re_sub has_long_ref]. unfold long_ref_here.
      destruct (match_decimal_ref (c :: s)) as [[digits len]|] eqn:Em.
      * apply match_decimal_ref_inv in Em as (Hne & Hd & Hamp).
        rewrite (strip_decimal_run digits (firstn len (c :: s)) Hne Hd).
        destruct (int_max_str_digits <? List.length digits)%nat;
          [reflexivity|].
        cbn [orb]. specialize (IH (len - 1)%nat Hamp).
        destruct (has_long_ref s).
        -- now rewrite IH.
        -- destruct IH as [out ->]. eauto.
      * cbn [orb]. specialize (IH 0%nat (Forall_nil _)).
        destruct (has_long_ref s).
        -- now rewrite IH.
        -- destruct IH as [out ->]. eauto.
    + cbn [firstn] in Hk. inversion Hk as [|? ? Hc Hk']; subst.
      rewrite (no_ampersand_no_long_ref _ _ Hc).
      cbn [re_sub]. apply IH, Hk'.
Qed.

(** The hexadecimal substitution never raises. *)
Lemma hex_pass s : forall k,
  exists out,
    re_sub match_hex_ref
      (fun group1 group0 => strip_illegal_xml_characters group1 group0 16) k s
    = inr out.
Proof.
  induction s as [|c s IH]; intros k.
  - destruct k; cbn; eauto.
  - destruct k as [|k]; cbn [re_sub]; [|apply IH].
    destruct (match_hex_ref (c :: s)) as [[digits len]|] eqn:Em.
    + apply match_hex_ref_inv in Em as (Hne & Hd).
      rewrite (strip_hex_run digits (firstn len (c :: s)) Hne Hd).
      destruct (IH (len - 1)%nat) as [out ->]. eauto.
    + destruct (IH 0%nat) as [out ->]. eauto.
Qed.

(** X26: [remove_control_characters] raises [ValueError] exactly when the
    string, non-ASCII code points written as references, holds a decimal
    reference of more than 4300 digits, which [int] refuses; on every other
    string it returns. *)
Theorem remove_control_characters_raises_on_long_reference (html : pystr) :
  if has_long_ref (xmlcharrefreplace html) then
    remove_control_characters html
    = inl (ValueError "Exceeds the limit (4300 digits) for integer string conversion")
  else
    exists out, remove_control_characters html = inr out.
Proof.
  unfold remove_control_characters.
  pose proof (decimal_pass (xmlcharrefreplace html) 0 (Forall_nil _)) as H.
  destruct (has_long_ref (xmlcharrefreplace html)).
  - now rewrite H.
  - destruct H as [html1 ->].
    destruct (hex_pass html1 0) as [html2 ->]. eauto.
Qed.

Local Close Scope N_scope.

(** ** Sanitizer: further proofs *)

Lemma settled_iter_kinds IE e :
  settled IE e = true ->
  Forall (fun x => is_comment (tag x) = false
                   /\ is_interactive IE (tag x) = false) (iter e).
Proof.
  induction e as [n a x l c IHc | x l] using Element_ind2; intros Hs;
    [|discriminate].
  simpl iter. constructor.
  - now destruct (settled_node_facts IE _ Hs) as (? & ? & _).
  - apply settled_children in Hs. simpl in Hs.
    induction IHc as [|e c He _ IH]; simpl in *; [constructor|].
    apply andb_prop in Hs as [H1 H2].
    apply Forall_app. auto.
Qed.

(** X12: after [clean_html] no comment and no element with a tag of
    [INTERACTIVE_ELEMENTS] is left anywhere below the traversal root. *)
Theorem clean_html_removes_below_root (IE : list string) (t t' : Tree)
        (root' : Element) :
  clean_html IE t = inr t' ->
  getroot t' = Some root' ->
  Forall (fun x => is_comment (tag x) = false
                   /\ is_interactive IE (tag x) = false)
         (flat_map iter (getchildren root')).
Proof.
  intros H Hr.
  destruct (clean_html_root_inv IE _ _ _ H Hr) as (root & _ & ->).
  assert (Hch : forallb (settled IE) (getchildren (clean_root IE root)) = true).
  { destruct (clean_root_cases IE root) as [[_ ->] | [_ Hs]].
    - apply children_visited_settled.
    - now apply settled_children. }
  induction (getchildren (clean_root IE root)) as [|e c IHc]; simpl in *;
    [constructor|].
  apply andb_prop in Hch as [H1 H2].
  apply Forall_app. split; [now apply settled_iter_kinds | auto].
Qed.

Lemma clean_html_removes_below_root_witness :
  let t := AsElement
             (Elem "body" [] None None
                   [CommentNode " menu " None;
                    Elem "form" [] None None [Elem "p" [] (Some "x") None []];
                    Elem "div" [] None None
                         [Elem "button" [] (Some "OK") None [];
                          Elem "p" [] (Some "text") None []]]) in
  let root' := Elem "body" [] None None
                    [Elem "div" [] None None [Elem "p" [] (Some "text") None []]] in
  clean_html INTERACTIVE_ELEMENTS_listed t = inr (AsElement root')
  /\ getroot (AsElement root') = Some root'
  /\ Forall (fun x => is_comment (tag x) = false
                      /\ is_interactive INTERACTIVE_ELEMENTS_listed (tag x) = false)
            (flat_map iter (getchildren root')).
Proof.
  intros t root'. split; [reflexivity | split; [reflexivity|]].
  exact (clean_html_removes_below_root INTERACTIVE_ELEMENTS_listed t
           (AsElement root') root' eq_refl eq_refl).
Defined.

(** X13: an element that is not interactive and whose [style] matches
    [display\s*:\s*none] comes out of [clean_html] with nothing but its tag:
    [clear()] drops its children, its text, all its attributes and also its
    tail, the text that follows the element. *)
Theorem clean_html_hidden_root (IE : list string) (n : string)
        (a : list (string * string)) (x l : option string) (c : list Element) :
  ~ In n IE ->
  hidden_by_style a = true ->
  clean_html IE (AsElement (Elem n a x l c))
  = inr (AsElement (Elem n [] (Some "") None [])).
Proof.
  intros Hn Hh. apply (not_in_existsb IE) in Hn.
  unfold clean_html, clean_root. do 2 f_equal.
  rewrite post_order_traversal_eq.
  set (e := children_visited _ _).
  assert (Ht : tag e = TagStr n) by apply tag_children_visited.
  assert (Ha : attrib e = a) by reflexivity.
  unfold _clean_html. rewrite Ht, Ha, Hh.
  change (is_comment (TagStr n)) with false.
  change (is_interactive IE (TagStr n)) with (existsb (String.eqb n) IE).
  rewrite Hn. cbv iota. clearbody e.
  destruct e; simpl in *; [|discriminate].
  inversion Ht; subst. reflexivity.
Qed.

Lemma clean_html_hidden_root_witness :
  ~ In "span" INTERACTIVE_ELEMENTS_listed
  /\ hidden_by_style [("id", "note"); ("style", "color:red; display : none")]
     = true
  /\ clean_html INTERACTIVE_ELEMENTS_listed
       (AsElement (Elem "span" [("id", "note"); ("style", "color:red; display : none")]
                        (Some "secret") (Some " shown after") []))
     = inr (AsElement (Elem "span" [] (Some "") None [])).
Proof.
  assert (H : ~ In "span" INTERACTIVE_ELEMENTS_listed).
  { simpl. intros H.
    repeat (destruct H as [H|H]; [discriminate H|]). exact H. }
  split; [exact H | split; [reflexivity|]].
  exact (clean_html_hidden_root INTERACTIVE_ELEMENTS_listed "span"
           [("id", "note"); ("style", "color:red; display : none")]
           (Some "secret") (Some " shown after") [] H eq_refl).
Defined.

(** ** Budget pruner: further proofs *)






(** ** Text collapser: proofs *)

Lemma rstrip_cons c s :
  rstrip (String c s)
  = match rstrip s with
    | EmptyString => if is_space c then EmptyString else String c EmptyString
    | r => String c r
    end.
Proof. reflexivity. Qed.

Lemma rstrip_idem s : rstrip (rstrip s) = rstrip s.
Proof.
  induction s as [|c s IH]; [reflexivity|].
  rewrite rstrip_cons. destruct (rstrip s) as [|d r] eqn:E.
  - destruct (is_space c) eqn:Ec; [reflexivity|].
    rewrite rstrip_cons. simpl. now rewrite Ec.
  - rewrite rstrip_cons, IH. reflexivity.
Qed.

Lemma skip_spaces_length s : String.length (skip_spaces s) <= String.length s.
Proof.
  induction s as [|c s IH]; simpl; [lia|].
  destruct (is_space c); simpl; lia.
Qed.

Lemma skip_spaces_fixed s :
  skip_spaces s = s ->
  s = "" \/ exists c s', s = String c s' /\ is_space c = false.
Proof.
  destruct s as [|c s]; [now left|]. right. exists c, s. split; [reflexivity|].
  simpl in H. destruct (is_space c); [|reflexivity].
  pose proof (skip_spaces_length s) as Hl. rewrite H in Hl. simpl in Hl. lia.
Qed.

Lemma skip_spaces_idem s : skip_spaces (skip_spaces s) = skip_spaces s.
Proof.
  induction s as [|c s IH]; [reflexivity|].
  simpl. destruct (is_space c) eqn:E; [exact IH|].
  simpl. now rewrite E.
Qed.

Lemma skip_spaces_rstrip s :
  skip_spaces s = s -> skip_spaces (rstrip s) = rstrip s.
Proof.
  intros H. destruct (skip_spaces_fixed s H) as [-> | (c & s' & -> & Hc)];
    [reflexivity|].
  rewrite rstrip_cons.
  destruct (rstrip s'); rewrite ?Hc; cbn [skip_spaces]; now rewrite Hc.
Qed.

(** What [strip] returns neither begins nor ends with white space. *)
Lemma strip_stripped s :
  skip_spaces (strip s) = strip s /\ rstrip (strip s) = strip s.
Proof.
  unfold strip. split.
  - apply skip_spaces_rstrip, skip_spaces_idem.
  - apply rstrip_idem.
Qed.

Lemma stripped_strip s : skip_spaces s = s -> rstrip s = s -> strip s = s.
Proof. unfold strip. now intros -> ->. Qed.

Lemma rstrip_app a b : b <> "" -> rstrip b = b -> rstrip (a ++ b) = a ++ b.
Proof.
  intros Hb Hr. induction a as [|c a IH]; [exact Hr|].
  cbn [append]. rewrite rstrip_cons, IH.
  destruct (a ++ b) eqn:E; [|reflexivity].
  destruct a; simpl in E; [contradiction | discriminate].
Qed.

Lemma skip_spaces_app a b :
  a <> "" -> skip_spaces a = a -> skip_spaces (a ++ b) = a ++ b.
Proof.
  intros Ha Hs.
  destruct (skip_spaces_fixed a Hs) as [-> | (c & a' & -> & Hc)];
    [contradiction|].
  cbn [append skip_spaces]. now rewrite Hc.
Qed.

Lemma nonempty_spec s : nonempty s = true <-> s <> "".
Proof.
  unfold nonempty. rewrite negb_true_iff. split.
  - intros H ->. discriminate.
  - intros H. destruct (String.eqb_spec s ""); [contradiction | reflexivity].
Qed.

Lemma join_stripped l :
  Forall (fun s => s <> "" /\ skip_spaces s = s /\ rstrip s = s) l ->
  skip_spaces (String.concat " " l) = String.concat " " l
  /\ rstrip (String.concat " " l) = String.concat " " l
  /\ (l <> [] -> String.concat " " l <> "").
Proof.
  induction 1 as [|x l (Hx & Hs & Hr) Hl IH]; [now repeat split|].
  destruct l as [|y l].
  - simpl. repeat split; auto.
  - rewrite concat_cons2. destruct IH as (_ & IHr & IHne).
    assert (Hne : String.concat " " (y :: l) <> "") by (apply IHne; discriminate).
    repeat split.
    + now apply skip_spaces_app.
    + apply rstrip_app; [discriminate|].
      change (" " ++ String.concat " " (y :: l))
        with (String " " (String.concat " " (y :: l))).
      rewrite rstrip_cons, IHr.
      destruct (String.concat " " (y :: l)); [contradiction | reflexivity].
    + intros _ E. destruct x; [contradiction | discriminate].
Qed.

Lemma fragments_stripped l :
  Forall (fun s => s <> "" /\ skip_spaces s = s /\ rstrip s = s)
         (filter nonempty (map strip l)).
Proof.
  apply Forall_forall. intros s Hs. apply filter_In in Hs as [Hs Hne].
  apply in_map_iff in Hs as (t & <- & _).
  split; [now apply nonempty_spec | apply strip_stripped].
Qed.

Lemma text_content_stripped ele :
  skip_spaces (get_text_content ele) = get_text_content ele
  /\ rstrip (get_text_content ele) = get_text_content ele.
Proof.
  unfold get_text_content.
  destruct (join_stripped _ (fragments_stripped (itertext ele))) as (Hs & Hr & _).
  now split.
Qed.

(** X15: the text [get_text_content] returns neither begins nor ends with
    white space: stripping it again changes nothing. *)
Theorem get_text_content_stripped (ele : Element) :
  strip (get_text_content ele) = get_text_content ele.
Proof.
  destruct (text_content_stripped ele) as [Hs Hr].
  now apply stripped_strip.
Qed.

Lemma get_text_content_leaf n a T l :
  strip T = T -> get_text_content (Elem n a (Some T) l []) = T.
Proof.
  intros HT. unfold get_text_content. simpl. rewrite HT.
  destruct (nonempty T) eqn:E; [reflexivity|].
  simpl. unfold nonempty in E. apply negb_false_iff, String.eqb_eq in E.
  now subst.
Qed.

(** An element already collapsed to stripped text is left as it is. *)
Lemma replace_with_text_leaf n a T l :
  strip T = T ->
  replace_with_text (Elem n a (Some T) l []) = Elem n a (Some T) l [].
Proof.
  intros HT. unfold replace_with_text.
  cbn [remove_children set_children set_text].
  now rewrite get_text_content_leaf.
Qed.

Lemma replace_with_text_shape e :
  replace_with_text e
  = match e with
    | Elem n a _ l _ => Elem n a (Some (get_text_content e)) l []
    | CommentNode _ l => CommentNode "" l
    end.
Proof. now destruct e. Qed.

Lemma text_content_strip_fixed e : strip (get_text_content e) = get_text_content e.
Proof.
  destruct (text_content_stripped e) as [Hs Hr]. now apply stripped_strip.
Qed.

Lemma replace_with_text_twice e :
  replace_with_text (replace_with_text e) = replace_with_text e.
Proof.
  rewrite (replace_with_text_shape e).
  destruct e as [n a x l c | x l]; [|reflexivity].
  apply replace_with_text_leaf, text_content_strip_fixed.
Qed.

(** X16: [replace_with_text] is idempotent: collapsing an element that was
    already collapsed to its text changes nothing. *)
Theorem replace_with_text_idempotent (ele : Element) :
  replace_with_text (replace_with_text ele) = replace_with_text ele.
Proof.
  rewrite (replace_with_text_shape ele).
  destruct ele as [n a x l c | x l]; [|reflexivity].
  apply replace_with_text_leaf.
  destruct (text_content_stripped (Elem n a x l c)) as [Hs Hr].
  now apply stripped_strip.
Qed.

Lemma strip_idem s : strip (strip s) = strip s.
Proof. destruct (strip_stripped s). now apply stripped_strip. Qed.

Lemma tag_replace_with_text e : tag (replace_with_text e) = tag e.
Proof. now destruct e. Qed.

Lemma collapse_children_idempotent name e :
  collapse_children name (collapse_children name e) = collapse_children name e.
Proof.
  destruct e as [n a x l c | x l]; [|reflexivity].
  unfold collapse_children. cbn [getchildren set_children]. f_equal.
  rewrite map_map. apply map_ext. intros child.
  destruct (tag_is (tag child) name) eqn:E; [|now rewrite E].
  now rewrite tag_replace_with_text, E, replace_with_text_twice.
Qed.

Lemma collapse_children_leaf name e :
  getchildren e = [] -> collapse_children name e = e.
Proof.
  destruct e as [n a x l c | x l]; [|reflexivity].
  simpl. now intros ->.
Qed.

Lemma collapse_children_shape name e :
  tag (collapse_children name e) = tag e
  /\ text (collapse_children name e) = text e
  /\ List.length (getchildren (collapse_children name e))
     = List.length (getchildren e).
Proof.
  destruct e as [n a x l c | x l]; [|now repeat split].
  unfold collapse_children. cbn. now rewrite length_map.
Qed.

(** The first test of [prune_to_text]. *)
Lemma prune_to_text_eq e :
  prune_to_text e
  = if (List.length (getchildren e) =? 0)%nat && nonempty (opt_str (text e))
    then set_text (Some (strip (opt_str (text e)))) e
    else if tag_is (tag e) "tr" then collapse_children "td" e
    else if tag_is (tag e) "table" then e
    else if tag_is (tag e) "ul" || tag_is (tag e) "ol" then
      collapse_children "li" e
    else replace_with_text e.
Proof. reflexivity. Qed.

(** A childless node whose text is stripped is left alone. *)
Lemma prune_to_text_leaf e :
  getchildren e = [] ->
  text e = Some (strip (opt_str (text e))) ->
  prune_to_text e = e.
Proof.
  intros Hc Ht. rewrite prune_to_text_eq, Hc. cbn [List.length Nat.eqb andb].
  destruct (nonempty (opt_str (text e))) eqn:Hne.
  - rewrite <- Ht. now destruct e.
  - rewrite !collapse_children_leaf by assumption.
    assert (Hempty : text e = Some "").
    { unfold nonempty in Hne. apply negb_false_iff, String.eqb_eq in Hne.
      rewrite Ht. f_equal. now rewrite Hne. }
    assert (Hr : replace_with_text e = e).
    { destruct e as [n a x l c | x l]; simpl in Hc, Hempty.
      - subst. reflexivity.
      - inversion Hempty; subst. reflexivity. }
    rewrite Hr.
    repeat match goal with |- context [if ?b then _ else _] => destruct b end;
      reflexivity.
Qed.

(** X17: [prune_to_text] is idempotent. *)
Theorem prune_to_text_idempotent (ele : Element) :
  prune_to_text (prune_to_text ele) = prune_to_text ele.
Proof.
  rewrite (prune_to_text_eq ele).
  destruct ((List.length (getchildren ele) =? 0)%nat
            && nonempty (opt_str (text ele))) eqn:Hcond.
  { apply andb_prop in Hcond as [Hlen _]. apply Nat.eqb_eq in Hlen.
    apply prune_to_text_leaf.
    - destruct ele as [n a x l c | x l]; [|reflexivity].
      simpl in *. now destruct c.
    - destruct ele; simpl; now rewrite strip_idem. }
  assert (Hcollapse : forall name,
             tag_is (tag ele) "tr" = true
             \/ tag_is (tag ele) "ul" || tag_is (tag ele) "ol" = true ->
             (tag_is (tag ele) "tr" = true -> name = "td") ->
             (tag_is (tag ele) "tr" = false -> name = "li") ->
             prune_to_text (collapse_children name ele)
             = collapse_children name ele).
  { intros name Htag Htd Hli. rewrite prune_to_text_eq.
    destruct (collapse_children_shape name ele) as (-> & -> & ->).
    rewrite Hcond.
    destruct (tag_is (tag ele) "tr") eqn:Etr.
    - rewrite (Htd eq_refl). apply collapse_children_idempotent.
    - rewrite (Hli eq_refl). destruct Htag as [Htag|Htag]; [discriminate|].
      rewrite Htag.
      destruct (tag_is (tag ele) "table");
        [reflexivity | apply collapse_children_idempotent]. }
  destruct (tag_is (tag ele) "tr") eqn:Etr.
  { apply Hcollapse; auto; discriminate. }
  destruct (tag_is (tag ele) "table") eqn:Etable.
  { rewrite prune_to_text_eq, Hcond, Etr, Etable. reflexivity. }
  destruct (tag_is (tag ele) "ul" || tag_is (tag ele) "ol") eqn:Elist.
  { apply Hcollapse; auto; discriminate. }
  destruct (nonempty (get_text_content ele)) eqn:Hne.
  - apply prune_to_text_leaf.
    + now destruct ele.
    + destruct ele as [n a x l c | x l]; [|reflexivity].
      unfold replace_with_text.
      cbn [text set_text remove_children set_children opt_str].
      now rewrite text_content_strip_fixed.
  - rewrite prune_to_text_eq, tag_replace_with_text, Etr, Etable, Elist.
    replace ((List.length (getchildren (replace_with_text ele)) =? 0)%nat
             && nonempty (opt_str (text (replace_with_text ele)))) with false.
    + apply replace_with_text_twice.
    + destruct ele as [n a x l c | x l]; [|reflexivity].
      unfold replace_with_text.
      cbn [text set_text remove_children set_children opt_str getchildren
           List.length Nat.eqb andb].
      now rewrite Hne.
Qed.

(** ** URL decoding: proofs *)

Lemma mask_attrib_set key v a v0 :
  attrib_get key a = Some v0 ->
  String.eqb key "href" || String.eqb key "src" = true ->
  map (fun kv => if String.eqb (fst kv) "href" || String.eqb (fst kv) "src"
                 then (fst kv, "") else kv) (attrib_set key v a)
  = map (fun kv => if String.eqb (fst kv) "href" || String.eqb (fst kv) "src"
                   then (fst kv, "") else kv) a.
Proof.
  intros Hget Hkey. induction a as [|[k w] a IH]; [discriminate|].
  cbn [attrib_get attrib_set] in *.
  destruct (String.eqb_spec k key) as [->|_].
  - cbn [map fst]. now rewrite Hkey.
  - cbn [map]. now rewrite IH.
Qed.

Lemma mask_urls_eq e :
  mask_urls e
  = match e with
    | Elem n a x l c =>
        Elem n
             (map (fun kv => if String.eqb (fst kv) "href" || String.eqb (fst kv) "src"
                             then (fst kv, "") else kv) a)
             x l (map mask_urls c)
    | CommentNode _ _ => e
    end.
Proof. now destruct e. Qed.

Section DecodeUrlProofs.

Variable unquote : string -> string.

Lemma _decode_url_mask hp e :
  exists e', _decode_url unquote hp e = Some e'
             /\ getchildren e' = getchildren e
             /\ mask_urls e' = mask_urls e.
Proof.
  unfold _decode_url. destruct (attrib e) as [|kv a] eqn:Ea; [eauto|].
  eexists. split; [reflexivity|].
  destruct e as [n a0 x l c | x l]; [|discriminate].
  cbn [attrib] in Ea. subst a0. cbn [set_attrib getchildren].
  split; [reflexivity|]. rewrite !mask_urls_eq. f_equal.
  set (a1 := match attrib_get "href" (kv :: a) with
             | Some v => attrib_set "href" (unquote v) (kv :: a)
             | None => kv :: a
             end).
  assert (H1 : map (fun kv => if String.eqb (fst kv) "href" || String.eqb (fst kv) "src"
                              then (fst kv, "") else kv) a1
               = map (fun kv => if String.eqb (fst kv) "href" || String.eqb (fst kv) "src"
                                then (fst kv, "") else kv) (kv :: a)).
  { subst a1. destruct (attrib_get "href" (kv :: a)) eqn:E; [|reflexivity].
    now apply (mask_attrib_set "href" _ _ s). }
  rewrite <- H1.
  destruct (attrib_get "src" a1) eqn:E; [|reflexivity].
  now apply (mask_attrib_set "src" _ _ s).
Qed.

Lemma post_order_decode_mask e : forall hp,
  exists e', post_order_traversal (_decode_url unquote) hp e = Some e'
             /\ mask_urls e' = mask_urls e.
Proof.
  induction e as [n a x l c IHc | x l] using Element_ind2; intros hp;
    rewrite post_order_traversal_eq.
  - assert (Hkids : map mask_urls
                        (kept (map (post_order_traversal (_decode_url unquote) true) c))
                    = map mask_urls c).
    { induction IHc as [|e c He _ IH]; [reflexivity|].
      cbn [map]. destruct (He true) as (e2 & -> & Hm2).
      cbn [kept flat_map app map]. rewrite Hm2. f_equal. exact IH. }
    destruct (_decode_url_mask hp
                (children_visited (_decode_url unquote) (Elem n a x l c)))
      as (e' & He' & _ & Hm).
    exists e'. split; [exact He'|]. rewrite Hm.
    cbn [children_visited]. rewrite !(mask_urls_eq (Elem _ _ _ _ _)).
    now rewrite Hkids.
  - destruct (_decode_url_mask hp (CommentNode x l)) as (e' & He' & _ & Hm).
    exists e'. split; assumption.
Qed.

(** X25: [decode_url] changes nothing but the values of [href] and [src]
    attributes: with those values blanked, the tree before and the tree
    after are the same, whatever [unquote] does. *)
Theorem decode_url_only_urls (element : Element) :
  mask_urls (decode_url unquote element) = mask_urls element.
Proof.
  unfold decode_url.
  destruct (post_order_decode_mask element false) as (e' & -> & Hm).
  exact Hm.
Qed.

End DecodeUrlProofs.
